(** * outils_finance : simulations d'interets composes et de credits

    Shallow embedding of [outils_finance.py].  Python floats are read as
    exact real numbers ([R]); the run-time errors the arithmetic can raise
    (division by zero, indexing an empty list) are kept explicit in an
    error monad, and every loop of the source is a fold of its body over
    [range]. *)

From Stdlib Require Import Reals Lra Lia ZArith List Psatz.
Import ListNotations.

Open Scope R_scope.

(** ** Python values and primitives *)

Module Python.

(** Exceptions the numeric core can raise. *)
Inductive exception : Type :=
| ZeroDivisionError
| IndexError
| TypeError.

(** Outcome of a run: a value, a raised exception, or [Complexe] when a
    negative base raised to a fractional power leaves the real numbers
    (Python then carries on with complex numbers, which are outside this
    development). *)
Inductive resultat (A : Type) : Type :=
| Valeur (a : A)
| Leve (e : exception)
| Complexe.

Arguments Valeur {A} a.
Arguments Leve {A} e.
Arguments Complexe {A}.

Definition bind {A B : Type} (r : resultat A) (k : A -> resultat B) : resultat B :=
  match r with
  | Valeur a => k a
  | Leve e => Leve e
  | Complexe => Complexe
  end.

(** [x / y] on floats. *)
Definition div (x y : R) : resultat R :=
  if Req_dec_T y 0 then Leve ZeroDivisionError else Valeur (x / y).

(** [x ** y] with a float exponent that is not a whole number, as in
    every use the source makes of it ([1 / float(12)]): a positive base
    gives the real power, [0.0] gives [0.0] for a positive exponent, and a
    negative base gives a complex number. *)
Definition puissance (x y : R) : resultat R :=
  if Rlt_dec 0 x then Valeur (Rpower x y)
  else if Req_dec_T x 0 then
    if Rlt_dec 0 y then Valeur 0
    else if Req_dec_T y 0 then Valeur 1
    else Leve ZeroDivisionError
  else Complexe.

(** [x ** n] with an int exponent. *)
Definition puissance_entiere (x : R) (n : Z) : resultat R :=
  if Req_dec_T x 0 then
    if (n <? 0)%Z then Leve ZeroDivisionError else Valeur (powerRZ x n)
  else Valeur (powerRZ x n).

(** [l[-1]]. *)
Definition dernier {A : Type} (l : list A) : resultat A :=
  match rev l with
  | [] => Leve IndexError
  | x :: _ => Valeur x
  end.

(** [l.pop(0)], keeping the list that remains. *)
Definition pop0 {A : Type} (l : list A) : resultat (list A) :=
  match l with
  | [] => Leve IndexError
  | _ :: q => Valeur q
  end.

(** [sum(l)]. *)
Definition sum (l : list R) : R := fold_left Rplus l 0.

(** [range(n)]. *)
Definition range (n : Z) : list Z := map Z.of_nat (seq 0 (Z.to_nat n)).

(** [int(x)] on a float: truncation towards zero. *)
Definition int (x : R) : Z :=
  if Rle_dec 0 x then Int_part x else (- Int_part (- x))%Z.

(** [for i in indices: s = corps(s, i)]. *)
Fixpoint pour {S I : Type} (corps : S -> I -> resultat S)
         (indices : list I) (s : S) : resultat S :=
  match indices with
  | [] => Valeur s
  | i :: reste => bind (corps s i) (pour corps reste)
  end.

End Python.

Import Python.

Declare Scope py_scope.
Delimit Scope py_scope with py.
Notation "x <- c ;; k" := (bind c (fun x => k))
  (at level 61, c at next level, right associativity) : py_scope.
Open Scope py_scope.

(** ** Interets composes *)

(** Variables of the loop of [calculer_interets_composes]. *)
Record etat_interets : Type := Etat_interets {
  ei_apports_mensuels : R;
  ei_interets_mensuels_cumules : list R;
  ei_apports_mensuels_monnaie_actuelle : list R;
  ei_capitals_mensuels : list R;
  ei_labels_mois : list Z
}.

(** Body of [for mois in range(duree_de_simulation_mois)]. *)
Definition iteration_interets
    (capital_initial taux_rentabilite_mensuel coefficient_inflation_mensuel : R)
    (s : etat_interets) (mois : Z) : resultat etat_interets :=
  apports_mensuels <- div (ei_apports_mensuels s) coefficient_inflation_mensuel ;;
  let apports_mensuels_monnaie_actuelle :=
    ei_apports_mensuels_monnaie_actuelle s ++ [apports_mensuels] in
  if negb (mois =? 0)%Z then
    c1 <- dernier (ei_capitals_mensuels s) ;;
    i1 <- dernier (ei_interets_mensuels_cumules s) ;;
    let interets_du_mois_en_cours := (c1 + i1) * taux_rentabilite_mensuel in
    i2 <- dernier (ei_interets_mensuels_cumules s) ;;
    q <- div (i2 + interets_du_mois_en_cours) coefficient_inflation_mensuel ;;
    let interets_mensuels_cumules := ei_interets_mensuels_cumules s ++ [q] in
    c2 <- dernier (ei_capitals_mensuels s) ;;
    d <- div c2 coefficient_inflation_mensuel ;;
    Valeur {| ei_apports_mensuels := apports_mensuels;
              ei_interets_mensuels_cumules := interets_mensuels_cumules;
              ei_apports_mensuels_monnaie_actuelle := apports_mensuels_monnaie_actuelle;
              ei_capitals_mensuels := ei_capitals_mensuels s ++ [d + apports_mensuels];
              ei_labels_mois := ei_labels_mois s ++ [mois] |}
  else
    d <- div capital_initial coefficient_inflation_mensuel ;;
    Valeur {| ei_apports_mensuels := apports_mensuels;
              ei_interets_mensuels_cumules := ei_interets_mensuels_cumules s ++ [0];
              ei_apports_mensuels_monnaie_actuelle := apports_mensuels_monnaie_actuelle;
              ei_capitals_mensuels := ei_capitals_mensuels s ++ [d + apports_mensuels];
              ei_labels_mois := ei_labels_mois s ++ [0%Z] |}.

(** Result tuple of [calculer_interets_composes]. *)
Record simulation_interets : Type := Simulation_interets {
  si_capitals_mensuels : list R;
  si_interets_mensuels_cumules : list R;
  si_labels_mois : list Z;
  si_apports_mensuels_monnaie_actuelle : list R;
  si_variation_capital : R
}.

(** [(1 + taux) ** (1 / float(12))]. *)
Definition facteur_mensuel (taux_annuel : R) : resultat R :=
  puissance (1 + taux_annuel) (1 / 12).

Definition calculer_interets_composes
    (taux_rentabilite_annuel capital_initial apports_mensuels : R)
    (duree_de_simulation_mois : Z) (taux_inflation_annuel : R)
    : resultat simulation_interets :=
  p <- facteur_mensuel taux_rentabilite_annuel ;;
  let taux_rentabilite_mensuel := p - 1 in
  coefficient_inflation_mensuel <-
    match facteur_mensuel taux_inflation_annuel with
    | Complexe => Leve TypeError
    | r => r
    end ;;
  s <- pour (iteration_interets capital_initial taux_rentabilite_mensuel
               coefficient_inflation_mensuel)
            (range duree_de_simulation_mois)
            {| ei_apports_mensuels := apports_mensuels;
               ei_interets_mensuels_cumules := [];
               ei_apports_mensuels_monnaie_actuelle := [];
               ei_capitals_mensuels := [];
               ei_labels_mois := [] |} ;;
  capital_final <- dernier (ei_capitals_mensuels s) ;;
  let variation_capital :=
    capital_final - (capital_initial + sum (ei_apports_mensuels_monnaie_actuelle s)) in
  Valeur {| si_capitals_mensuels := ei_capitals_mensuels s;
            si_interets_mensuels_cumules := ei_interets_mensuels_cumules s;
            si_labels_mois := ei_labels_mois s;
            si_apports_mensuels_monnaie_actuelle := ei_apports_mensuels_monnaie_actuelle s;
            si_variation_capital := variation_capital |}.

(** ** Simulation de credit *)

(** Variables of the loop of [simuler_credit]. *)
Record etat_credit : Type := Etat_credit {
  ec_mensualite : R;
  ec_cout_total_interets : R;
  ec_capital_rembourse_par_mois : list R;
  ec_capital_restant_par_mois : list R;
  ec_interets_mensuels : list R;
  ec_labels_mois : list Z
}.

(** Body of [for mois in range(nombre_mensualites)]. *)
Definition iteration_credit
    (nombre_mensualites : Z) (taux_mensuel coefficient_inflation_mensuel : R)
    (s : etat_credit) (mois : Z) : resultat etat_credit :=
  r1 <- dernier (ec_capital_restant_par_mois s) ;;
  p1 <- puissance_entiere (1 + taux_mensuel) (nombre_mensualites - mois) ;;
  p2 <- puissance_entiere (1 + taux_mensuel) (nombre_mensualites - mois) ;;
  mensualite <- div (r1 * taux_mensuel * p1) (p2 - 1) ;;
  r2 <- dernier (ec_capital_restant_par_mois s) ;;
  interet_du_mois <- div (r2 * taux_mensuel) coefficient_inflation_mensuel ;;
  let cout_total_interets := ec_cout_total_interets s + interet_du_mois in
  let capital_rembourse_du_mois := mensualite - interet_du_mois in
  r3 <- dernier (ec_capital_restant_par_mois s) ;;
  d <- div r3 coefficient_inflation_mensuel ;;
  Valeur {| ec_mensualite := mensualite;
            ec_cout_total_interets := cout_total_interets;
            ec_capital_rembourse_par_mois :=
              ec_capital_rembourse_par_mois s ++ [capital_rembourse_du_mois];
            ec_capital_restant_par_mois :=
              ec_capital_restant_par_mois s ++ [d - capital_rembourse_du_mois];
            ec_interets_mensuels := ec_interets_mensuels s ++ [interet_du_mois];
            ec_labels_mois := ec_labels_mois s ++ [mois] |}.

(** Result tuple of [simuler_credit]. *)
Record simulation_credit : Type := Simulation_credit {
  sc_premiere_mensualite : R;
  sc_cout_total_interets : R;
  sc_capital_rembourse_par_mois : list R;
  sc_capital_restant_par_mois : list R;
  sc_interets_mensuels : list R;
  sc_labels_mois : list Z
}.

Definition simuler_credit
    (montant_emprunte_total : R) (nombre_mensualites : Z)
    (taux_annuel taux_inflation_annuel : R) : resultat simulation_credit :=
  p <- facteur_mensuel taux_annuel ;;
  let taux_mensuel := p - 1 in
  coefficient_inflation_mensuel <-
    match facteur_mensuel taux_inflation_annuel with
    | Complexe => Leve TypeError
    | r => r
    end ;;
  p1 <- puissance_entiere (1 + taux_mensuel) nombre_mensualites ;;
  p2 <- puissance_entiere (1 + taux_mensuel) nombre_mensualites ;;
  premiere_mensualite <- div (montant_emprunte_total * taux_mensuel * p1) (p2 - 1) ;;
  s <- pour (iteration_credit nombre_mensualites taux_mensuel
               coefficient_inflation_mensuel)
            (range nombre_mensualites)
            {| ec_mensualite := premiere_mensualite;
               ec_cout_total_interets := 0;
               ec_capital_rembourse_par_mois := [0];
               ec_capital_restant_par_mois := [montant_emprunte_total];
               ec_interets_mensuels := [0];
               ec_labels_mois := [0%Z] |} ;;
  capital_rembourse_par_mois <- pop0 (ec_capital_rembourse_par_mois s) ;;
  capital_restant_par_mois <- pop0 (ec_capital_restant_par_mois s) ;;
  interets_mensuels <- pop0 (ec_interets_mensuels s) ;;
  labels_mois <- pop0 (ec_labels_mois s) ;;
  Valeur {| sc_premiere_mensualite := premiere_mensualite;
            sc_cout_total_interets := ec_cout_total_interets s;
            sc_capital_rembourse_par_mois := capital_rembourse_par_mois;
            sc_capital_restant_par_mois := capital_restant_par_mois;
            sc_interets_mensuels := interets_mensuels;
            sc_labels_mois := labels_mois |}.

(** ** Capital empruntable *)

Definition calculer_capital
    (mensualite taux_annuel : R) (duree_en_mois : Z) : resultat R :=
  p <- facteur_mensuel taux_annuel ;;
  let taux_mensuel := p - 1 in
  q <- puissance_entiere (1 + taux_mensuel) (-1 * duree_en_mois) ;;
  div (mensualite * (1 - q)) taux_mensuel.

(** ** Correcteur d'inflation *)

(** Body of [for mois in range(12)] inside [for annee in range(...)];
    the state is the pair [(coefficients, labels_mois)]. *)
Definition iteration_correcteur
    (coefficient_inflation_mensuel : R) (annee : Z)
    (s : list R * list Z) (mois : Z) : resultat (list R * list Z) :=
  if (negb (annee =? 0)%Z || negb (mois =? 0)%Z)%bool then
    c <- dernier (fst s) ;;
    Valeur (fst s ++ [c * coefficient_inflation_mensuel],
            snd s ++ [(annee * 12 + mois)%Z])
  else Valeur s.

Definition correcteur_inflation
    (taux_annuel : R) (duree_de_simulation_en_annees : Z)
    : resultat (list R * list Z) :=
  p <- facteur_mensuel taux_annuel ;;
  let coefficient_inflation_mensuel := 2 - p in
  pour (fun s annee =>
          pour (iteration_correcteur coefficient_inflation_mensuel annee)
               (range 12) s)
       (range duree_de_simulation_en_annees)
       ([1], [0%Z]).

(** ** Rapport d'interets composes *)

(** [l[0]]. *)
Definition premier {A : Type} (l : list A) : resultat A :=
  match l with
  | [] => Leve IndexError
  | x :: _ => Valeur x
  end.

(** [l[-2]]. *)
Definition avant_dernier {A : Type} (l : list A) : resultat A :=
  match rev l with
  | _ :: x :: _ => Valeur x
  | _ => Leve IndexError
  end.

(** A line of the report of [afficher_rapport_simulation_interets_composes],
    named after what it shows and carrying the number handed to the
    format string; the rendering of that number as text is left out. *)
Inductive ligne_rapport : Type :=
| Capital_initial (x : R)
| Taux_de_rentabilite_pourcent (x : R)
| Taux_d_inflation_pourcent (x : R)
| Capital_en_monnaie_actuelle (x : R)
| Apports_cumules_en_monnaie_actuelle (x : R)
| Apports_cumules_sans_correction (x : R)
| Variation_du_capital (x : R)
| Interets_cumules (x : R)
| Interets_du_dernier_mois (x : R)
| Montant_final (x : R).

(** Standard output so far, and how the run ended. *)
Definition sortie : Type := list ligne_rapport * resultat unit.

(** [print(l)] followed by the rest of the function. *)
Definition print (l : ligne_rapport) (suite : sortie) : sortie :=
  (l :: fst suite, snd suite).

(** Evaluate [r]; an exception ends the run with nothing more printed. *)
Definition evalue {A : Type} (r : resultat A) (suite : A -> sortie) : sortie :=
  match r with
  | Valeur a => suite a
  | Leve e => ([], Leve e)
  | Complexe => ([], Complexe)
  end.

Definition afficher_rapport_simulation_interets_composes
    (capital_initial : R) (capitals_mensuels interets_mensuels_cumules : list R)
    (labels_mois : list Z) (taux_rentabilite_annuel mensualites : R)
    (apports_mensuels_monnaie_actuelle : list R)
    (variation_capital taux_inflation_annuel : R) : sortie :=
  print (Capital_initial capital_initial)
  (print (Taux_de_rentabilite_pourcent (taux_rentabilite_annuel * 100))
  (print (Taux_d_inflation_pourcent (taux_inflation_annuel * 100))
  (evalue (dernier capitals_mensuels) (fun cumul_apports =>
   print (Capital_en_monnaie_actuelle cumul_apports)
  (print (Apports_cumules_en_monnaie_actuelle
            (sum apports_mensuels_monnaie_actuelle))
  (print (Apports_cumules_sans_correction
            (capital_initial + mensualites * INR (length labels_mois)))
  (print (Variation_du_capital variation_capital)
  (evalue (dernier interets_mensuels_cumules) (fun interets_cumules =>
   print (Interets_cumules interets_cumules)
  (evalue (dernier interets_mensuels_cumules) (fun i1 =>
   evalue (avant_dernier interets_mensuels_cumules) (fun i2 =>
   let interets_dernier_mois := i1 - i2 in
   print (Interets_du_dernier_mois interets_dernier_mois)
  (evalue (dernier capitals_mensuels) (fun c =>
   evalue (dernier interets_mensuels_cumules) (fun i =>
   print (Montant_final (c + i))
   ([], Valeur tt)))))))))))))))).

(** ** Comparaison de strategies *)

(** Body of [if afficher:] in [evaluer_strategies], as far as it can end
    the run: the two written reports and the list accesses of the lines
    printed around them, in the order of the source.  The report of the
    credit only prints its arguments, and the charts are drawn by
    matplotlib, which is taken to return; the text printed leaves no trace
    in the result. *)
Definition affichage_strategies
    (mensualites capital taux_de_rentabilite_annuel_placement
       taux_annuel_inflation : R)
    (strat1 strat2 : simulation_interets) : resultat unit :=
  rapport1 <- snd (afficher_rapport_simulation_interets_composes
                     capital (si_capitals_mensuels strat1)
                     (si_interets_mensuels_cumules strat1) (si_labels_mois strat1)
                     taux_de_rentabilite_annuel_placement mensualites
                     (si_apports_mensuels_monnaie_actuelle strat1)
                     (si_variation_capital strat1) taux_annuel_inflation) ;;
  bolus <- premier (si_capitals_mensuels strat2) ;;
  rapport2 <- snd (afficher_rapport_simulation_interets_composes
                     capital (si_capitals_mensuels strat2)
                     (si_interets_mensuels_cumules strat2) (si_labels_mois strat2)
                     taux_de_rentabilite_annuel_placement 0
                     (si_apports_mensuels_monnaie_actuelle strat1)
                     (si_variation_capital strat2) taux_annuel_inflation) ;;
  interets1 <- dernier (si_interets_mensuels_cumules strat1) ;;
  interets2 <- dernier (si_interets_mensuels_cumules strat2) ;;
  Valeur tt.

(** [evaluer_strategies]: the triple is computed first; when [afficher]
    is set the display block runs before it is returned, and an exception
    raised there ends the call. *)
Definition evaluer_strategies
    (mensualites : R) (duree_de_simulation : Z)
    (taux_de_rentabilite_annuel_placement taux_annuel_general_credit : R)
    (afficher : bool) (taux_annuel_inflation : R) : resultat (R * R * R) :=
  strat1 <- calculer_interets_composes taux_de_rentabilite_annuel_placement
              0 mensualites duree_de_simulation taux_annuel_inflation ;;
  capital <- calculer_capital mensualites taux_annuel_general_credit
               duree_de_simulation ;;
  credit <- simuler_credit capital duree_de_simulation
              taux_annuel_general_credit taux_annuel_inflation ;;
  strat2 <- calculer_interets_composes taux_de_rentabilite_annuel_placement
              capital 0 duree_de_simulation taux_annuel_inflation ;;
  i1 <- dernier (si_interets_mensuels_cumules strat1) ;;
  let benefice_net_strat1 := i1 + si_variation_capital strat1 in
  i2 <- dernier (si_interets_mensuels_cumules strat2) ;;
  let benefice_net_strat2 :=
    i2 - sc_cout_total_interets credit + si_variation_capital strat2 in
  affichage <- (if afficher
                then affichage_strategies mensualites capital
                       taux_de_rentabilite_annuel_placement
                       taux_annuel_inflation strat1 strat2
                else Valeur tt) ;;
  Valeur (capital, benefice_net_strat1, benefice_net_strat2).

(** A matrix under construction: rows are appended one by one. *)
Definition matrice : Type := list (list Z).

(** Body of [for taux_general_credit in liste_taux_general_credit]; the
    state is the triple of rows being filled. *)
Definition iteration_taux_credit
    (mensualite : R) (duree_de_simulation : Z)
    (taux_rentabilite_annuel taux_inflation_annuel : R)
    (s : list Z * list Z * list Z) (taux_general_credit : R)
    : resultat (list Z * list Z * list Z) :=
  let '(avantage, benef_net_strat2, benef_strat1_ligne) := s in
  r <- evaluer_strategies mensualite duree_de_simulation
         taux_rentabilite_annuel taux_general_credit false
         taux_inflation_annuel ;;
  let '(_, benef_strat1, benef_strat2) := r in
  Valeur (avantage ++ [int (benef_strat2 - benef_strat1)],
          benef_net_strat2 ++ [int benef_strat2],
          benef_strat1_ligne ++ [int benef_strat1]).

(** Body of [for taux_rentabilite_annuel in ...]. *)
Definition iteration_taux_rentabilite
    (mensualite : R) (duree_de_simulation : Z)
    (liste_taux_general_credit : list R) (taux_inflation_annuel : R)
    (s : matrice * matrice * matrice) (taux_rentabilite_annuel : R)
    : resultat (matrice * matrice * matrice) :=
  let '(avantage_strat2, benefices_nets_strat2, benefices_strat1) := s in
  ligne <- pour (iteration_taux_credit mensualite duree_de_simulation
                   taux_rentabilite_annuel taux_inflation_annuel)
                liste_taux_general_credit ([], [], []) ;;
  let '(a, b2, b1) := ligne in
  Valeur (avantage_strat2 ++ [a], benefices_nets_strat2 ++ [b2],
          benefices_strat1 ++ [b1]).

Definition comparer_strategies_selon_rentabilite_et_credit
    (mensualite : R) (duree_de_simulation : Z)
    (liste_taux_de_rentatibilite_annuel_placement liste_taux_general_credit : list R)
    (taux_inflation_annuel : R) : resultat (matrice * matrice * matrice) :=
  pour (iteration_taux_rentabilite mensualite duree_de_simulation
          liste_taux_general_credit taux_inflation_annuel)
       liste_taux_de_rentatibilite_annuel_placement ([], [], []).

(** ** The recurrences of the specification

    These follow the words of the specification, to be compared with the
    lists the loops of the source build. *)

(** Contribution of month [k], deflated once per elapsed month. *)
Definition apport_actualise (c f : R) (k : nat) : R := c / f ^ (k + 1).

(** Pair (capital, cumulative interest) at month [k]. *)
Fixpoint serie_interets (C c m f : R) (k : nat) : R * R :=
  match k with
  | O => (C / f + apport_actualise c f 0, 0)
  | S j =>
      let '(capital, interet) := serie_interets C c m f j in
      (capital / f + apport_actualise c f k,
       (interet + (capital + interet) * m) / f)
  end.

(** Installment recomputed at 1-indexed month [k] from the balance [b]
    left by month [k - 1]. *)
Definition mensualite_du_mois (i : R) (N : Z) (k : nat) (b : R) : R :=
  b * i * powerRZ (1 + i) (N - Z.of_nat k + 1)
  / (powerRZ (1 + i) (N - Z.of_nat k + 1) - 1).

(** Remaining balance after [k] installments. *)
Fixpoint solde_credit (P i f : R) (N : Z) (k : nat) : R :=
  match k with
  | O => P
  | S j =>
      let b := solde_credit P i f N j in
      b / f - (mensualite_du_mois i N k b - b * i / f)
  end.

(** Interest of 1-indexed month [k], charged on the balance left by
    month [k - 1]. *)
Definition interet_credit (P i f : R) (N : Z) (k : nat) : R :=
  solde_credit P i f N (k - 1) * i / f.

(** Principal repaid at 1-indexed month [k]. *)
Definition capital_rembourse (P i f : R) (N : Z) (k : nat) : R :=
  mensualite_du_mois i N k (solde_credit P i f N (k - 1))
  - interet_credit P i f N k.

(** The pair (net benefit 1, net benefit 2) of a run of
    [evaluer_strategies] that returns, used to name the entries of the
    sweep matrices. *)
Definition benefices_nets
    (mensualite : R) (duree : Z) (taux_inflation taux_rentabilite taux_credit : R)
    : R * R :=
  match evaluer_strategies mensualite duree taux_rentabilite taux_credit false
          taux_inflation with
  | Valeur (_, b1, b2) => (b1, b2)
  | _ => (0, 0)
  end.

(** ** Loop states, month by month *)

(** State of the loop of [calculer_interets_composes] after [n] turns. *)
Definition etat_interets_apres (C c m f : R) (n : nat) : etat_interets :=
  {| ei_apports_mensuels := c / f ^ n;
     ei_interets_mensuels_cumules :=
       map (fun k => snd (serie_interets C c m f k)) (seq 0 n);
     ei_apports_mensuels_monnaie_actuelle := map (apport_actualise c f) (seq 0 n);
     ei_capitals_mensuels :=
       map (fun k => fst (serie_interets C c m f k)) (seq 0 n);
     ei_labels_mois := map Z.of_nat (seq 0 n) |}.

(** State of the loop of [simuler_credit] after [n] turns, entered with
    the installment [pm] in [mensualite]. *)
Definition etat_credit_apres (P i f : R) (N : Z) (pm : R) (n : nat) : etat_credit :=
  {| ec_mensualite :=
       match n with
       | O => pm
       | S j => mensualite_du_mois i N n (solde_credit P i f N j)
       end;
     ec_cout_total_interets := sum (map (interet_credit P i f N) (seq 1 n));
     ec_capital_rembourse_par_mois := 0 :: map (capital_rembourse P i f N) (seq 1 n);
     ec_capital_restant_par_mois := map (solde_credit P i f N) (seq 0 (S n));
     ec_interets_mensuels := 0 :: map (interet_credit P i f N) (seq 1 n);
     ec_labels_mois := 0%Z :: map Z.of_nat (seq 0 n) |}.

(** The two tables of [correcteur_inflation] once they hold [n] entries,
    [q] being the monthly coefficient the source multiplies by. *)
Definition tables_correcteur (q : R) (n : nat) : list R * list Z :=
  (map (pow q) (seq 0 n), map Z.of_nat (seq 0 n)).

(** Rates for which [evaluer_strategies] returns a real-valued triple. *)
Definition rentabilite_admise (r : R) : Prop := -1 < r.

Definition credit_admis (rc : R) : Prop :=
  -1 < rc /\ Rpower (1 + rc) (1 / 12) - 1 <> 0.

(** ** Lemmas on the primitives *)

Section Primitives.

Lemma div_valeur (x y : R) : y <> 0 -> div x y = Valeur (x / y).
Proof.
  intros Hy. unfold div. destruct (Req_dec_T y 0) as [E | _]; [contradiction | reflexivity].
Qed.

Lemma div_par_zero (x : R) : div x 0 = Leve ZeroDivisionError.
Proof.
  unfold div. destruct (Req_dec_T 0 0) as [_ | N]; [reflexivity | now elim N].
Qed.

Lemma puissance_positive (x y : R) : 0 < x -> puissance x y = Valeur (Rpower x y).
Proof.
  intros Hx. unfold puissance. destruct (Rlt_dec 0 x) as [_ | N]; [reflexivity | contradiction].
Qed.

Lemma facteur_mensuel_valeur (t : R) :
  -1 < t -> facteur_mensuel t = Valeur (Rpower (1 + t) (1 / 12)).
Proof. intros Ht. apply puissance_positive. lra. Qed.

Lemma Rpower_positive (x y : R) : 0 < Rpower x y.
Proof. unfold Rpower. apply exp_pos. Qed.

Lemma Rpower_non_nul (x y : R) : Rpower x y <> 0.
Proof. pose proof (Rpower_positive x y). lra. Qed.

Lemma Rpower_un (y : R) : Rpower 1 y = 1.
Proof. unfold Rpower. rewrite ln_1, Rmult_0_r. apply exp_0. Qed.

(** The monthly factor is a twelfth root. *)
Lemma facteur_puissance_12 (x : R) : 0 < x -> Rpower x (1 / 12) ^ 12 = x.
Proof.
  intros Hx. rewrite <- Rpower_pow by apply Rpower_positive.
  rewrite Rpower_mult.
  replace (1 / 12 * INR 12) with 1 by (simpl; field).
  now apply Rpower_1.
Qed.

Lemma puissance_entiere_valeur (x : R) (n : Z) :
  x <> 0 \/ (0 <= n)%Z -> puissance_entiere x n = Valeur (powerRZ x n).
Proof.
  intros H. unfold puissance_entiere.
  destruct (Req_dec_T x 0) as [E | _]; [| reflexivity].
  destruct (Z.ltb_spec n 0); [| reflexivity].
  destruct H; [contradiction | lia].
Qed.

Lemma dernier_app {A : Type} (l : list A) (x : A) : dernier (l ++ [x]) = Valeur x.
Proof. unfold dernier. now rewrite rev_unit. Qed.

Lemma pour_app {S I : Type} (corps : S -> I -> resultat S) (l1 l2 : list I) (s : S) :
  pour corps (l1 ++ l2) s = bind (pour corps l1 s) (pour corps l2).
Proof.
  revert s. induction l1 as [| i l1 IH]; intros s; simpl; [reflexivity |].
  destruct (corps s i); simpl; auto.
Qed.

Lemma range_succ (n : nat) :
  range (Z.of_nat (S n)) = range (Z.of_nat n) ++ [Z.of_nat n].
Proof.
  unfold range. rewrite !Nat2Z.id, seq_S, map_app. reflexivity.
Qed.

Lemma range_to_nat (n : Z) : range n = range (Z.of_nat (Z.to_nat n)).
Proof. unfold range. now rewrite Nat2Z.id. Qed.

Lemma range_length (n : Z) : length (range n) = Z.to_nat n.
Proof. unfold range. now rewrite length_map, length_seq. Qed.

Lemma sum_app (l : list R) (x : R) : sum (l ++ [x]) = sum l + x.
Proof. unfold sum. now rewrite fold_left_app. Qed.

End Primitives.

(** ** The loop of [calculer_interets_composes] *)

Section BoucleInterets.

Variables C c m f : R.
Hypothesis f_non_nul : f <> 0.

Lemma etat_interets_egal a a' i i' am am' ca ca' (l l' : list Z) :
  a = a' -> i = i' -> am = am' -> ca = ca' -> l = l' ->
  Valeur (Etat_interets a i am ca l) = Valeur (Etat_interets a' i' am' ca' l').
Proof. congruence. Qed.

Lemma apport_actualise_suivant (n : nat) :
  c / f ^ n / f = apport_actualise c f n.
Proof.
  unfold apport_actualise. replace (n + 1)%nat with (S n) by lia.
  simpl. field. split; [now apply pow_nonzero | assumption].
Qed.

Lemma boucle_interets (a0 : R) (n : nat) :
  a0 = c ->
  pour (iteration_interets C m f) (range (Z.of_nat n))
       {| ei_apports_mensuels := a0;
          ei_interets_mensuels_cumules := [];
          ei_apports_mensuels_monnaie_actuelle := [];
          ei_capitals_mensuels := [];
          ei_labels_mois := [] |}
  = Valeur (etat_interets_apres C c m f n).
Proof.
  intros ->. induction n as [| n IH].
  - simpl. apply etat_interets_egal; try reflexivity. simpl. field.
  - rewrite range_succ, pour_app, IH. simpl bind.
    unfold iteration_interets, etat_interets_apres at 1.
    cbn [ei_apports_mensuels ei_interets_mensuels_cumules
         ei_apports_mensuels_monnaie_actuelle ei_capitals_mensuels ei_labels_mois].
    rewrite div_valeur by assumption. simpl bind.
    rewrite apport_actualise_suivant.
    destruct n as [| n].
    + simpl. rewrite div_valeur by assumption. simpl.
      apply etat_interets_egal; reflexivity.
    + replace (Z.of_nat (S n) =? 0)%Z with false by (symmetry; apply Z.eqb_neq; lia).
      cbn [negb].
      rewrite (seq_S n 0), !map_app. cbn [map]. rewrite !dernier_app. simpl bind.
      rewrite !div_valeur by assumption. simpl bind.
      unfold etat_interets_apres.
      rewrite (seq_S (S n) 0), !map_app, (seq_S n 0), !map_app. cbn [map Nat.add].
      apply etat_interets_egal; try reflexivity.
      * unfold apport_actualise. replace (S n + 1)%nat with (S (S n)) by lia. reflexivity.
      * f_equal. f_equal. cbn [serie_interets]. destruct (serie_interets C c m f n) as [ca it].
        cbn [fst snd]. reflexivity.
      * f_equal. f_equal. cbn [serie_interets]. destruct (serie_interets C c m f n) as [ca it].
        cbn [fst snd]. reflexivity.
Qed.

End BoucleInterets.

(** ** [calculer_interets_composes] *)

Lemma nth_map_seq {A : Type} (g : nat -> A) (n k : nat) (d : A) :
  (k < n)%nat -> nth k (map g (seq 0 n)) d = g k.
Proof.
  intros Hk. rewrite (nth_indep _ d (g 0%nat)) by now rewrite length_map, length_seq.
  rewrite map_nth, seq_nth by assumption. reflexivity.
Qed.

Lemma dernier_map_seq {A : Type} (g : nat -> A) (n : nat) :
  dernier (map g (seq 0 (S n))) = Valeur (g n).
Proof. rewrite seq_S, map_app. apply dernier_app. Qed.

Lemma avant_dernier_app {A : Type} (l : list A) (x y : A) :
  avant_dernier (l ++ [x; y]) = Valeur x.
Proof. unfold avant_dernier. rewrite rev_app_distr. reflexivity. Qed.

Lemma avant_dernier_map_seq {A : Type} (g : nat -> A) (n : nat) :
  avant_dernier (map g (seq 0 (S (S n)))) = Valeur (g n).
Proof.
  rewrite (seq_S (S n)), (seq_S n), !map_app, <- app_assoc.
  apply avant_dernier_app.
Qed.

(** The value returned on the domain where every division is defined. *)
Lemma calculer_interets_composes_valeur (r C c : R) (N : Z) (infl : R) :
  -1 < r -> (1 <= N)%Z -> -1 < infl ->
  let m := Rpower (1 + r) (1 / 12) - 1 in
  let f := Rpower (1 + infl) (1 / 12) in
  let n := Z.to_nat N in
  calculer_interets_composes r C c N infl =
  Valeur {| si_capitals_mensuels :=
              map (fun k => fst (serie_interets C c m f k)) (seq 0 n);
            si_interets_mensuels_cumules :=
              map (fun k => snd (serie_interets C c m f k)) (seq 0 n);
            si_labels_mois := range N;
            si_apports_mensuels_monnaie_actuelle :=
              map (apport_actualise c f) (seq 0 n);
            si_variation_capital :=
              fst (serie_interets C c m f (n - 1))
              - (C + sum (map (apport_actualise c f) (seq 0 n))) |}.
Proof.
  intros Hr HN Hi m f n. subst m f. unfold calculer_interets_composes.
  rewrite !facteur_mensuel_valeur by assumption. simpl bind.
  replace N with (Z.of_nat n) at 1 by (unfold n; lia).
  rewrite (boucle_interets C c _ _ (Rpower_non_nul _ _) c n eq_refl).
  simpl bind. unfold etat_interets_apres.
  cbn [ei_apports_mensuels ei_interets_mensuels_cumules
       ei_apports_mensuels_monnaie_actuelle ei_capitals_mensuels ei_labels_mois].
  destruct n as [| n'] eqn:En; [unfold n in En; lia |].
  rewrite dernier_map_seq. simpl bind.
  replace (S n' - 1)%nat with n' by lia.
  unfold range. fold n. rewrite En. reflexivity.
Qed.

(** C1: on real-valued runs (rates above -100 %, at least one month) the
    series returned by [calculer_interets_composes] follow the stated
    recurrence: contribution_k = c / f^(k+1); capital_0 = C/f +
    contribution_0 and interest_0 = 0; for k > 0, interest_k =
    (interest_{k-1} + (capital_{k-1} + interest_{k-1}) m) / f and
    capital_k = capital_{k-1} / f + contribution_k; the variation is
    capital_{N-1} - (C + sum of the deflated contributions). *)
Theorem calculer_interets_composes_recurrence
    (r C c : R) (N : Z) (infl : R)
    (Hr : -1 < r) (HN : (1 <= N)%Z) (Hi : -1 < infl) :
  let m := Rpower (1 + r) (1 / 12) - 1 in
  let f := Rpower (1 + infl) (1 / 12) in
  let n := Z.to_nat N in
  exists res,
    calculer_interets_composes r C c N infl = Valeur res /\
    let capital k := nth k (si_capitals_mensuels res) 0 in
    let interet k := nth k (si_interets_mensuels_cumules res) 0 in
    let apport k := nth k (si_apports_mensuels_monnaie_actuelle res) 0 in
    length (si_capitals_mensuels res) = n /\
    length (si_interets_mensuels_cumules res) = n /\
    length (si_apports_mensuels_monnaie_actuelle res) = n /\
    si_labels_mois res = range N /\
    (forall k, (k < n)%nat -> apport k = c / f ^ (k + 1)) /\
    capital 0%nat = C / f + apport 0%nat /\
    interet 0%nat = 0 /\
    (forall k, (0 < k < n)%nat ->
       interet k = (interet (k - 1)%nat
                    + (capital (k - 1)%nat + interet (k - 1)%nat) * m) / f /\
       capital k = capital (k - 1)%nat / f + apport k) /\
    si_variation_capital res =
      capital (n - 1)%nat - (C + sum (si_apports_mensuels_monnaie_actuelle res)).
Proof.
  intros m f n. eexists. split.
  - apply calculer_interets_composes_valeur; assumption.
  - cbn [si_capitals_mensuels si_interets_mensuels_cumules si_labels_mois
         si_apports_mensuels_monnaie_actuelle si_variation_capital].
    fold m f n. assert (Hn : (0 < n)%nat) by (unfold n; lia).
    rewrite !length_map, !length_seq.
    repeat split.
    + intros k Hk. now rewrite nth_map_seq.
    + now rewrite !nth_map_seq.
    + now rewrite nth_map_seq.
    + destruct H as [H0 Hk]. rewrite !nth_map_seq by lia.
      destruct k as [| j]; [lia |]. replace (S j - 1)%nat with j by lia.
      cbn [serie_interets]. destruct (serie_interets C c m f j). reflexivity.
    + destruct H as [H0 Hk]. rewrite !nth_map_seq by lia.
      destruct k as [| j]; [lia |]. replace (S j - 1)%nat with j by lia.
      cbn [serie_interets]. destruct (serie_interets C c m f j). reflexivity.
    + rewrite nth_map_seq by lia. reflexivity.
Qed.

Lemma calculer_interets_composes_recurrence_witness :
  exists res,
    calculer_interets_composes (6 / 100) 10000 100 3 (1 / 100) = Valeur res /\
    length (si_capitals_mensuels res) = 3%nat /\
    nth 0 (si_interets_mensuels_cumules res) 0 = 0.
Proof.
  destruct (calculer_interets_composes_recurrence (6 / 100) 10000 100 3 (1 / 100))
    as [res [E [H1 [_ [_ [_ [_ [_ [H2 _]]]]]]]]]; [lra | lia | lra |].
  exists res. repeat split; assumption.
Defined.

(** ** The loop of [simuler_credit] *)

Lemma pow_different_de_un (x : R) (n : nat) :
  0 < x -> x <> 1 -> (0 < n)%nat -> x ^ n <> 1.
Proof.
  intros Hx Hx1 Hn. destruct (Rlt_dec x 1) as [Hlt | Hge].
  - assert (H : forall k, x ^ S k < 1).
    { induction k as [| k IH]; simpl in *; [lra |].
      assert (0 < x * x ^ k) by (apply Rmult_lt_0_compat; [lra | now apply pow_lt]).
      nra. }
    destruct n as [| k]; [lia |]. specialize (H k). lra.
  - assert (1 < x) by lra. pose proof (Rlt_pow_R1 x n H Hn). lra.
Qed.

Lemma powerRZ_different_de_un (x : R) (k : Z) :
  0 < x -> x <> 1 -> (1 <= k)%Z -> powerRZ x k - 1 <> 0.
Proof.
  intros Hx Hx1 Hk. replace k with (Z.of_nat (Z.to_nat k)) by lia.
  rewrite <- pow_powerRZ.
  pose proof (pow_different_de_un x (Z.to_nat k) Hx Hx1). lra || (assert (0 < Z.to_nat k)%nat by lia; intuition lra).
Qed.

Lemma taux_mensuel_non_nul (r : R) :
  -1 < r -> r <> 0 -> Rpower (1 + r) (1 / 12) - 1 <> 0.
Proof.
  intros Hr Hr0 E. pose proof (facteur_puissance_12 (1 + r)) as H.
  replace (Rpower (1 + r) (1 / 12)) with 1 in H by lra.
  rewrite pow1 in H. lra.
Qed.

Section BoucleCredit.

Variables P i f : R.
Variable N : Z.
Hypothesis f_non_nul : f <> 0.
Hypothesis base_positive : 0 < 1 + i.
Hypothesis base_non_unite : 1 + i <> 1.

Lemma boucle_credit (pm : R) (n : nat) :
  (Z.of_nat n <= N)%Z ->
  pour (iteration_credit N i f) (range (Z.of_nat n))
       {| ec_mensualite := pm;
          ec_cout_total_interets := 0;
          ec_capital_rembourse_par_mois := [0];
          ec_capital_restant_par_mois := [P];
          ec_interets_mensuels := [0];
          ec_labels_mois := [0%Z] |}
  = Valeur (etat_credit_apres P i f N pm n).
Proof.
  induction n as [| n IH]; intros Hn; [reflexivity |].
  rewrite range_succ, pour_app, IH by lia. cbn [bind pour].
  unfold iteration_credit, etat_credit_apres.
  cbn [ec_mensualite ec_cout_total_interets ec_capital_rembourse_par_mois
       ec_capital_restant_par_mois ec_interets_mensuels ec_labels_mois].
  repeat (first
    [ rewrite dernier_map_seq
    | rewrite puissance_entiere_valeur by (left; lra)
    | rewrite div_valeur
        by (assumption
            || (apply powerRZ_different_de_un; [assumption | assumption | lia])) ];
    cbn [bind]).
  rewrite (seq_S n 1), (seq_S (S n) 0), (seq_S n 0), !map_app.
  cbn [map Nat.add app]. rewrite sum_app.
  assert (Hm : solde_credit P i f N n * i * powerRZ (1 + i) (N - Z.of_nat n)
               / (powerRZ (1 + i) (N - Z.of_nat n) - 1)
               = mensualite_du_mois i N (S n) (solde_credit P i f N n)).
  { unfold mensualite_du_mois.
    replace (N - Z.of_nat (S n) + 1)%Z with (N - Z.of_nat n)%Z by lia. reflexivity. }
  rewrite Hm.
  assert (Hi : solde_credit P i f N n * i / f = interet_credit P i f N (S n)).
  { unfold interet_credit. now replace (S n - 1)%nat with n by lia. }
  rewrite Hi.
  assert (Hr : mensualite_du_mois i N (S n) (solde_credit P i f N n) - interet_credit P i f N (S n) = capital_rembourse P i f N (S n)).
  { unfold capital_rembourse. now replace (S n - 1)%nat with n by lia. }
  rewrite Hr.
  assert (Hs : solde_credit P i f N n / f - capital_rembourse P i f N (S n) = solde_credit P i f N (S n)).
  { unfold capital_rembourse, interet_credit.
    replace (S n - 1)%nat with n by lia. reflexivity. }
  rewrite Hs. reflexivity.
Qed.

End BoucleCredit.

(** ** [simuler_credit] *)

Lemma nth_map_seq1 {A : Type} (g : nat -> A) (n j : nat) (d : A) :
  (j < n)%nat -> nth j (map g (seq 1 n)) d = g (S j).
Proof.
  intros Hj. rewrite (nth_indep _ d (g 0%nat)) by now rewrite length_map, length_seq.
  rewrite map_nth, seq_nth by assumption. reflexivity.
Qed.

(** The value returned on the domain where every division is defined. *)
Lemma simuler_credit_valeur (P : R) (N : Z) (r infl : R) :
  -1 < r -> Rpower (1 + r) (1 / 12) - 1 <> 0 -> (1 <= N)%Z -> -1 < infl ->
  let i := Rpower (1 + r) (1 / 12) - 1 in
  let f := Rpower (1 + infl) (1 / 12) in
  let n := Z.to_nat N in
  simuler_credit P N r infl =
  Valeur {| sc_premiere_mensualite :=
              P * i * powerRZ (1 + i) N / (powerRZ (1 + i) N - 1);
            sc_cout_total_interets := sum (map (interet_credit P i f N) (seq 1 n));
            sc_capital_rembourse_par_mois := map (capital_rembourse P i f N) (seq 1 n);
            sc_capital_restant_par_mois := map (solde_credit P i f N) (seq 1 n);
            sc_interets_mensuels := map (interet_credit P i f N) (seq 1 n);
            sc_labels_mois := range N |}.
Proof.
  intros Hr Hi0 HN Hinf i f n. unfold simuler_credit.
  rewrite !facteur_mensuel_valeur by assumption. cbn [bind]. fold i f.
  assert (Hx : 0 < 1 + i) by (unfold i; pose proof (Rpower_positive (1 + r) (1 / 12)); lra).
  assert (Hx1 : 1 + i <> 1) by (unfold i in *; lra).
  repeat (first
    [ rewrite puissance_entiere_valeur by (left; lra)
    | rewrite div_valeur by (apply powerRZ_different_de_un; assumption) ];
    cbn [bind]).
  rewrite (range_to_nat N) at 1. fold n.
  rewrite (boucle_credit P i f N (Rpower_non_nul _ _) Hx Hx1) by (unfold n; lia).
  reflexivity.
Qed.

(** C2: on real-valued runs with a nonzero monthly rate, [simuler_credit]
    produces for each 1-indexed month k = 1..N, from balance_0 = P:
    payment_k = balance_{k-1} i (1+i)^(N-k+1) / ((1+i)^(N-k+1) - 1),
    interest_k = balance_{k-1} i / f, principal_k = payment_k - interest_k,
    balance_k = balance_{k-1} / f - principal_k; every returned series has
    length N, and the first payment is the fixed-installment formula over
    the full term. *)
Theorem simuler_credit_echeancier
    (P : R) (N : Z) (r infl : R)
    (Hr : -1 < r) (Hi0 : Rpower (1 + r) (1 / 12) - 1 <> 0)
    (HN : (1 <= N)%Z) (Hinf : -1 < infl) :
  let i := Rpower (1 + r) (1 / 12) - 1 in
  let f := Rpower (1 + infl) (1 / 12) in
  let n := Z.to_nat N in
  exists res,
    simuler_credit P N r infl = Valeur res /\
    let solde k :=
      match k with
      | O => P
      | S j => nth j (sc_capital_restant_par_mois res) 0
      end in
    let interet k := nth (k - 1) (sc_interets_mensuels res) 0 in
    let rembourse k := nth (k - 1) (sc_capital_rembourse_par_mois res) 0 in
    length (sc_capital_rembourse_par_mois res) = n /\
    length (sc_capital_restant_par_mois res) = n /\
    length (sc_interets_mensuels res) = n /\
    length (sc_labels_mois res) = n /\
    sc_premiere_mensualite res
      = P * i * powerRZ (1 + i) N / (powerRZ (1 + i) N - 1) /\
    forall k, (1 <= k <= n)%nat ->
      let mensualite :=
        solde (k - 1)%nat * i * powerRZ (1 + i) (N - Z.of_nat k + 1)
        / (powerRZ (1 + i) (N - Z.of_nat k + 1) - 1) in
      interet k = solde (k - 1)%nat * i / f /\
      rembourse k = mensualite - interet k /\
      solde k = solde (k - 1)%nat / f - rembourse k.
Proof.
  intros i f n. eexists. split.
  - apply simuler_credit_valeur; assumption.
  - cbn [sc_premiere_mensualite sc_capital_rembourse_par_mois
         sc_capital_restant_par_mois sc_interets_mensuels sc_labels_mois].
    fold i f n. rewrite !length_map, !length_seq, range_length.
    do 5 (split; [reflexivity |]).
    intros k [Hk1 Hk2]. destruct k as [| j]; [lia |].
    replace (S j - 1)%nat with j by lia.
    rewrite !nth_map_seq1 by lia.
    assert (Hs : match j with
                 | O => P
                 | S j' => nth j' (map (solde_credit P i f N) (seq 1 n)) 0
                 end = solde_credit P i f N j).
    { destruct j as [| j']; [reflexivity |]. now rewrite nth_map_seq1 by lia. }
    rewrite Hs. unfold capital_rembourse, interet_credit.
    replace (S j - 1)%nat with j by lia.
    repeat split.
Qed.

Lemma simuler_credit_echeancier_witness :
  exists res,
    simuler_credit 100000 120 (3 / 100) (1 / 100) = Valeur res /\
    length (sc_interets_mensuels res) = 120%nat.
Proof.
  destruct (simuler_credit_echeancier 100000 120 (3 / 100) (1 / 100))
    as [res [E [_ [_ [H _]]]]].
  - lra.
  - apply taux_mensuel_non_nul; lra.
  - lia.
  - lra.
  - exists res. split; assumption.
Defined.

(** C10: the total interest cost returned by [simuler_credit] is the sum
    of the monthly-interest series it returns. *)
Theorem simuler_credit_cout_total
    (P : R) (N : Z) (r infl : R)
    (Hr : -1 < r) (Hi0 : Rpower (1 + r) (1 / 12) - 1 <> 0)
    (HN : (1 <= N)%Z) (Hinf : -1 < infl) :
  exists res,
    simuler_credit P N r infl = Valeur res /\
    sc_cout_total_interets res = sum (sc_interets_mensuels res).
Proof.
  eexists. split.
  - apply simuler_credit_valeur; assumption.
  - reflexivity.
Qed.

Lemma simuler_credit_cout_total_witness :
  exists res,
    simuler_credit 100000 120 (3 / 100) (1 / 100) = Valeur res /\
    sc_cout_total_interets res = sum (sc_interets_mensuels res).
Proof.
  apply (simuler_credit_cout_total 100000 120 (3 / 100) (1 / 100));
    [lra | apply taux_mensuel_non_nul; lra | lia | lra].
Defined.

(** ** Zero inflation: the fixed-installment schedule *)

Section SansInflation.

Variables P i : R.
Variable n : nat.
Hypothesis base_positive : 0 < 1 + i.
Hypothesis base_non_unite : 1 + i <> 1.

Let N : Z := Z.of_nat n.

Lemma exposant_restant (k : nat) :
  (k < n)%nat ->
  powerRZ (1 + i) (N - Z.of_nat (S k) + 1) = (1 + i) ^ (n - k).
Proof.
  intros Hk. rewrite pow_powerRZ. f_equal. unfold N. lia.
Qed.

Lemma decoupe_puissance (k : nat) :
  (k <= n)%nat -> (1 + i) ^ n = (1 + i) ^ k * (1 + i) ^ (n - k).
Proof.
  intros Hk. rewrite <- pow_add. f_equal. lia.
Qed.

(** Closed form of the balance after [k] installments. *)
Lemma solde_sans_inflation (k : nat) :
  (k <= n)%nat -> (0 < n)%nat ->
  solde_credit P i 1 N k = P * ((1 + i) ^ n - (1 + i) ^ k) / ((1 + i) ^ n - 1).
Proof.
  intros Hk Hn.
  assert (Hd : (1 + i) ^ n - 1 <> 0).
  { pose proof (pow_different_de_un (1 + i) n base_positive base_non_unite Hn). lra. }
  induction k as [| k IH].
  - simpl. field. exact Hd.
  - cbn [solde_credit]. rewrite IH by lia. unfold mensualite_du_mois.
    rewrite exposant_restant by lia.
    assert (Hc : (1 + i) ^ (n - k) - 1 <> 0).
    { assert (0 < n - k)%nat as H0 by lia.
      pose proof (pow_different_de_un (1 + i) (n - k) base_positive base_non_unite H0).
      lra. }
    rewrite (decoupe_puissance k) in * by lia.
    cbn [pow]. set (a := (1 + i) ^ k) in *. set (c := (1 + i) ^ (n - k)) in *.
    field. split; [exact Hd | exact Hc].
Qed.

(** Every recomputed installment is the fixed installment. *)
Lemma mensualite_constante (k : nat) :
  (k < n)%nat ->
  mensualite_du_mois i N (S k) (solde_credit P i 1 N k)
  = P * i * powerRZ (1 + i) N / (powerRZ (1 + i) N - 1).
Proof.
  intros Hk. assert (Hn : (0 < n)%nat) by lia.
  assert (Hd : (1 + i) ^ n - 1 <> 0).
  { pose proof (pow_different_de_un (1 + i) n base_positive base_non_unite Hn). lra. }
  assert (Hc : (1 + i) ^ (n - k) - 1 <> 0).
  { assert (0 < n - k)%nat as H0 by lia.
    pose proof (pow_different_de_un (1 + i) (n - k) base_positive base_non_unite H0).
    lra. }
  unfold mensualite_du_mois. rewrite exposant_restant by assumption.
  rewrite solde_sans_inflation by lia.
  unfold N. rewrite <- pow_powerRZ.
  rewrite (decoupe_puissance k) in * by lia.
  set (a := (1 + i) ^ k) in *. set (c := (1 + i) ^ (n - k)) in *.
  field. split; [exact Hd | exact Hc].
Qed.

(** The principal repaid telescopes against the balance. *)
Lemma somme_capital_rembourse (j : nat) :
  sum (map (capital_rembourse P i 1 N) (seq 1 j)) = P - solde_credit P i 1 N j.
Proof.
  induction j as [| j IH].
  - unfold sum. simpl. ring.
  - rewrite seq_S, map_app. cbn [map Nat.add]. rewrite sum_app, IH.
    unfold capital_rembourse, interet_credit.
    replace (S j - 1)%nat with j by lia. cbn [solde_credit]. field.
Qed.

End SansInflation.

(** C8: with zero inflation and a nonzero monthly rate, [simuler_credit]
    yields the standard fixed-installment schedule: the payment recomputed
    at every month equals the first payment returned, the balance after
    the final month is 0, and the principal repaid sums to the principal
    borrowed (exactly, over the reals). *)
Theorem simuler_credit_sans_inflation
    (P : R) (N : Z) (r : R)
    (Hr : -1 < r) (Hi0 : Rpower (1 + r) (1 / 12) - 1 <> 0) (HN : (1 <= N)%Z) :
  let i := Rpower (1 + r) (1 / 12) - 1 in
  let n := Z.to_nat N in
  exists res,
    simuler_credit P N r 0 = Valeur res /\
    let solde k :=
      match k with
      | O => P
      | S j => nth j (sc_capital_restant_par_mois res) 0
      end in
    (forall k, (1 <= k <= n)%nat ->
       mensualite_du_mois i N k (solde (k - 1)%nat) = sc_premiere_mensualite res /\
       nth (k - 1) (sc_capital_rembourse_par_mois res) 0
       + nth (k - 1) (sc_interets_mensuels res) 0 = sc_premiere_mensualite res) /\
    solde n = 0 /\
    sum (sc_capital_rembourse_par_mois res) = P.
Proof.
  intros i n. eexists. split.
  - apply simuler_credit_valeur; [assumption | assumption | assumption | lra].
  - cbn [sc_premiere_mensualite sc_capital_rembourse_par_mois
         sc_capital_restant_par_mois sc_interets_mensuels].
    replace (1 + 0) with 1 by ring. rewrite Rpower_un. fold i n.
    assert (HNn : N = Z.of_nat n) by (unfold n; lia).
    assert (Hn : (0 < n)%nat) by (unfold n; lia).
    clearbody n. subst N.
    assert (Hx : 0 < 1 + i)
      by (unfold i; pose proof (Rpower_positive (1 + r) (1 / 12)); lra).
    assert (Hx1 : 1 + i <> 1) by (unfold i in *; lra).
    assert (Hfin : solde_credit P i 1 (Z.of_nat n) n = 0).
    { rewrite solde_sans_inflation by (assumption || lia).
      unfold Rdiv. replace ((1 + i) ^ n - (1 + i) ^ n) with 0 by ring. ring. }
    split; [| split].
    + intros k [Hk1 Hk2]. destruct k as [| j]; [lia |].
      replace (S j - 1)%nat with j by lia. rewrite !nth_map_seq1 by lia.
      assert (Hs : match j with
                   | O => P
                   | S j' => nth j' (map (solde_credit P i 1 (Z.of_nat n)) (seq 1 n)) 0
                   end = solde_credit P i 1 (Z.of_nat n) j).
      { destruct j as [| j']; [reflexivity |]. now rewrite nth_map_seq1 by lia. }
      rewrite Hs. unfold capital_rembourse. replace (S j - 1)%nat with j by lia.
      rewrite mensualite_constante by (assumption || lia). split; [reflexivity | ring].
    + destruct n as [| n']; [lia |]. rewrite nth_map_seq1 by lia. exact Hfin.
    + rewrite somme_capital_rembourse, Hfin. ring.
Qed.

Lemma simuler_credit_sans_inflation_witness :
  exists res,
    simuler_credit 100000 120 (3 / 100) 0 = Valeur res /\
    nth 119 (sc_capital_restant_par_mois res) 0 = 0 /\
    sum (sc_capital_rembourse_par_mois res) = 100000.
Proof.
  destruct (simuler_credit_sans_inflation 100000 120 (3 / 100))
    as [res [E [_ [H1 H2]]]].
  - lra.
  - apply taux_mensuel_non_nul; lra.
  - lia.
  - exists res. repeat split; assumption.
Defined.

(** ** [calculer_capital] *)

Lemma div_leve (x y : R) : y = 0 -> div x y = Leve ZeroDivisionError.
Proof. intros ->. apply div_par_zero. Qed.

Lemma calculer_capital_valeur (p r : R) (N : Z) :
  -1 < r -> Rpower (1 + r) (1 / 12) - 1 <> 0 ->
  let i := Rpower (1 + r) (1 / 12) - 1 in
  calculer_capital p r N = Valeur (p * (1 - powerRZ (1 + i) (-1 * N)) / i).
Proof.
  intros Hr Hi0 i. unfold calculer_capital.
  rewrite facteur_mensuel_valeur by assumption. cbn [bind]. fold i.
  rewrite puissance_entiere_valeur
    by (left; unfold i; pose proof (Rpower_positive (1 + r) (1 / 12)); lra).
  cbn [bind]. now apply div_valeur.
Qed.

(** C5, as the code has it: at annual rate 0 [calculer_capital] has no
    special case and returns nothing; the division by the zero monthly
    rate raises [ZeroDivisionError], whatever the payment and the term. *)
Theorem calculer_capital_taux_nul (p : R) (N : Z) :
  calculer_capital p 0 N = Leve ZeroDivisionError.
Proof.
  unfold calculer_capital. rewrite facteur_mensuel_valeur by lra. cbn [bind].
  replace (1 + 0) with 1 by ring. rewrite Rpower_un.
  rewrite puissance_entiere_valeur by (left; lra). cbn [bind].
  apply div_leve. ring.
Qed.

(** C5 fails as stated: a payment of 1000 over 120 months at rate 0 does
    not return 1000 * 120. *)
Lemma calculer_capital_taux_nul_contre_exemple :
  calculer_capital 1000 0 120 = Leve ZeroDivisionError /\
  calculer_capital 1000 0 120 <> Valeur (1000 * 120).
Proof.
  assert (E : calculer_capital 1000 0 120 = Leve ZeroDivisionError).
  { unfold calculer_capital. rewrite facteur_mensuel_valeur by lra. cbn [bind].
    replace (1 + 0) with 1 by ring. rewrite Rpower_un.
    rewrite puissance_entiere_valeur by (left; lra). cbn [bind].
    apply div_leve. ring. }
  split; [exact E | rewrite E; discriminate].
Qed.

(** C7: the capital sized by [calculer_capital] from a payment [p], fed
    to [simuler_credit] with the same term and rate and no inflation,
    gives back [p] as first monthly payment. *)
Theorem capital_puis_credit
    (p : R) (N : Z) (r : R)
    (Hr : -1 < r) (Hi0 : Rpower (1 + r) (1 / 12) - 1 <> 0) (HN : (1 <= N)%Z) :
  exists capital res,
    calculer_capital p r N = Valeur capital /\
    simuler_credit capital N r 0 = Valeur res /\
    sc_premiere_mensualite res = p.
Proof.
  eexists. eexists. split; [| split].
  - apply calculer_capital_valeur; assumption.
  - apply simuler_credit_valeur; [assumption | assumption | assumption | lra].
  - cbn [sc_premiere_mensualite].
    set (i := Rpower (1 + r) (1 / 12) - 1) in *.
    assert (Hx : 0 < 1 + i)
      by (unfold i; pose proof (Rpower_positive (1 + r) (1 / 12)); lra).
    assert (Hd : powerRZ (1 + i) N - 1 <> 0)
      by (apply powerRZ_different_de_un; [assumption | unfold i in *; lra | assumption]).
    replace (-1 * N)%Z with (- N)%Z by lia.
    rewrite powerRZ_neg' by lra.
    assert (Hp : powerRZ (1 + i) N <> 0) by (apply powerRZ_NOR; lra).
    field. repeat split; assumption.
Qed.

Lemma capital_puis_credit_witness :
  exists capital res,
    calculer_capital 1000 (5 / 100) 120 = Valeur capital /\
    simuler_credit capital 120 (5 / 100) 0 = Valeur res /\
    sc_premiere_mensualite res = 1000.
Proof.
  apply (capital_puis_credit 1000 120 (5 / 100));
    [lra | apply taux_mensuel_non_nul; lra | lia].
Defined.

(** ** Lump sum without inflation *)

(** With no contribution and no inflation the capital stays at its
    initial value and the interest accumulates beside it. *)
Lemma serie_sans_apport_ni_inflation (C m : R) (k : nat) :
  serie_interets C 0 m 1 k = (C, C * ((1 + m) ^ k - 1)).
Proof.
  induction k as [| k IH]; cbn [serie_interets].
  - unfold apport_actualise. rewrite pow1. f_equal; simpl; field.
  - rewrite IH. unfold apport_actualise. rewrite pow1. f_equal; simpl; field.
Qed.

(** Bounds on 1.06^(119/12), the growth over months 0..119 at 6 % a year. *)
Lemma croissance_119_mois :
  let x := Rpower (1 + 6 / 100) (1 / 12) in
  17819 / 10000 < x ^ 119 < 179085 / 100000.
Proof.
  intros x.
  assert (H12 : x ^ 12 = 106 / 100).
  { unfold x. rewrite facteur_puissance_12 by lra. lra. }
  assert (Hpos : 0 < x) by apply Rpower_positive.
  assert (Hlo : 1 < x).
  { destruct (Rlt_dec 1 x) as [H | H]; [exact H | exfalso].
    assert (x ^ 12 <= 1 ^ 12) by (apply pow_incr; lra).
    rewrite pow1 in *. lra. }
  assert (Hhi : x < 1005 / 1000).
  { destruct (Rlt_dec x (1005 / 1000)) as [H | H]; [exact H | exfalso].
    assert (Hle : (1005 / 1000) ^ 12 <= x ^ 12) by (apply pow_incr; lra).
    rewrite H12 in Hle. lra. }
  assert (H11 : x ^ 11 * x = 106 / 100) by (rewrite <- H12; ring).
  assert (Hy : 0 < x ^ 11) by now apply pow_lt.
  replace (x ^ 119) with ((x ^ 12) ^ 9 * x ^ 11) by ring.
  rewrite H12. set (y := x ^ 11) in *.
  assert (y < 106 / 100) by nra.
  assert (106 / 100 < 1005 / 1000 * y) by nra.
  split; lra.
Qed.

(** The run of the concrete scenario: 6 % a year, 10000 invested, no
    contribution, 120 months, no inflation. *)
Lemma scenario_capital_seul :
  let x := Rpower (1 + 6 / 100) (1 / 12) in
  exists res,
    calculer_interets_composes (6 / 100) 10000 0 120 0 = Valeur res /\
    nth 119 (si_capitals_mensuels res) 0 = 10000 /\
    nth 119 (si_interets_mensuels_cumules res) 0 = 10000 * (x ^ 119 - 1).
Proof.
  intros x. eexists. split.
  - apply calculer_interets_composes_valeur; [lra | lia | lra].
  - cbn [si_capitals_mensuels si_interets_mensuels_cumules].
    replace (1 + 0) with 1 by ring. rewrite Rpower_un.
    change (Z.to_nat 120) with 120%nat.
    rewrite !nth_map_seq by lia. rewrite serie_sans_apport_ni_inflation.
    cbn [fst snd]. fold x. split; [reflexivity |].
    now replace (1 + (x - 1)) with x by ring.
Qed.

(** C4, as the code has it: with no contribution and no inflation the
    capital series stays at the initial capital C at every month, and it
    is the capital plus the cumulative interest that equals C (1+m)^k at
    month k (exactly, over the reals); in the scenario at 6 % a year for
    10000 over 120 months, the final capital plus cumulative interest is
    within 1 % of 17908.48. *)
Theorem calculer_interets_composes_capital_seul
    (r C : R) (N : Z) (Hr : -1 < r) (HN : (1 <= N)%Z) :
  let m := Rpower (1 + r) (1 / 12) - 1 in
  (exists res,
     calculer_interets_composes r C 0 N 0 = Valeur res /\
     forall k, (k < Z.to_nat N)%nat ->
       nth k (si_capitals_mensuels res) 0 = C /\
       nth k (si_capitals_mensuels res) 0
       + nth k (si_interets_mensuels_cumules res) 0 = C * (1 + m) ^ k) /\
  (exists res,
     calculer_interets_composes (6 / 100) 10000 0 120 0 = Valeur res /\
     Rabs (nth 119 (si_capitals_mensuels res) 0
           + nth 119 (si_interets_mensuels_cumules res) 0 - 1790848 / 100)
     <= 1 / 100 * (1790848 / 100)).
Proof.
  intros m. split.
  - eexists. split.
    + apply calculer_interets_composes_valeur; [assumption | assumption | lra].
    + cbn [si_capitals_mensuels si_interets_mensuels_cumules].
      replace (1 + 0) with 1 by ring. rewrite Rpower_un. fold m.
      intros k Hk. rewrite !nth_map_seq by assumption.
      rewrite serie_sans_apport_ni_inflation. cbn [fst snd].
      split; [reflexivity | ring].
  - destruct scenario_capital_seul as [res [E [Hc Hi]]].
    exists res. split; [exact E |]. rewrite Hc, Hi.
    pose proof croissance_119_mois as Hx. cbv zeta in Hx.
    set (v := Rpower (1 + 6 / 100) (1 / 12) ^ 119) in *.
    apply Rabs_le. split; lra.
Qed.

Lemma calculer_interets_composes_capital_seul_witness :
  exists res,
    calculer_interets_composes (6 / 100) 10000 0 120 0 = Valeur res /\
    Rabs (nth 119 (si_capitals_mensuels res) 0
          + nth 119 (si_interets_mensuels_cumules res) 0 - 1790848 / 100)
    <= 1 / 100 * (1790848 / 100).
Proof.
  apply (calculer_interets_composes_capital_seul (6 / 100) 10000 120); [lra | lia].
Defined.

(** C4 fails as stated: in the scenario at 6 % a year the final entry of
    the capital series is 10000, which is neither within 1e-9 (relative)
    of 10000 (1+m)^119 nor within 1 % of 17908.48. *)
Lemma calculer_interets_composes_capital_seul_contre_exemple :
  exists res,
    calculer_interets_composes (6 / 100) 10000 0 120 0 = Valeur res /\
    nth 119 (si_capitals_mensuels res) 0 = 10000 /\
    ~ Rabs (nth 119 (si_capitals_mensuels res) 0
            - 10000 * (1 + (Rpower (1 + 6 / 100) (1 / 12) - 1)) ^ 119)
      <= 1 / 1000000000
         * Rabs (10000 * (1 + (Rpower (1 + 6 / 100) (1 / 12) - 1)) ^ 119) /\
    ~ Rabs (nth 119 (si_capitals_mensuels res) 0 - 1790848 / 100)
      <= 1 / 100 * (1790848 / 100).
Proof.
  destruct scenario_capital_seul as [res [E [Hc _]]].
  exists res. split; [exact E |]. split; [exact Hc |]. rewrite Hc.
  pose proof croissance_119_mois as Hx. cbv zeta in Hx.
  replace (1 + (Rpower (1 + 6 / 100) (1 / 12) - 1))
    with (Rpower (1 + 6 / 100) (1 / 12)) by ring.
  set (v := Rpower (1 + 6 / 100) (1 / 12) ^ 119) in *.
  split; intros H.
  - rewrite (Rabs_left (10000 - 10000 * v)) in H by lra.
    rewrite (Rabs_right (10000 * v)) in H by lra. lra.
  - rewrite Rabs_left in H by lra. lra.
Qed.

(** ** [correcteur_inflation] *)

Section BoucleCorrecteur.

Variable q : R.

Lemma iteration_correcteur_ajoute (a mo : nat) :
  (a <> 0 \/ mo <> 0)%nat ->
  iteration_correcteur q (Z.of_nat a) (tables_correcteur q (12 * a + mo)) (Z.of_nat mo)
  = Valeur (tables_correcteur q (12 * a + mo + 1)).
Proof.
  intros H. unfold iteration_correcteur.
  replace (negb (Z.of_nat a =? 0)%Z || negb (Z.of_nat mo =? 0)%Z)%bool with true.
  2:{ symmetry. apply Bool.orb_true_iff. rewrite !Bool.negb_true_iff, !Z.eqb_neq. lia. }
  destruct (12 * a + mo)%nat as [| n] eqn:En; [lia |].
  unfold tables_correcteur. cbn [fst snd].
  rewrite dernier_map_seq. cbn [bind].
  replace (S n + 1)%nat with (S (S n)) by lia.
  rewrite (seq_S (S n) 0), !map_app. cbn [map Nat.add].
  f_equal. f_equal.
  - f_equal. f_equal. simpl. ring.
  - f_equal. f_equal. lia.
Qed.

(** Months of the first year: month 0 appends nothing. *)
Lemma boucle_premiere_annee (j : nat) :
  pour (iteration_correcteur q 0) (range (Z.of_nat (S j))) ([1], [0%Z])
  = Valeur (tables_correcteur q (S j)).
Proof.
  induction j as [| j IH]; [reflexivity |].
  rewrite range_succ, pour_app, IH. cbn [bind pour].
  assert (H : iteration_correcteur q 0 (tables_correcteur q (S j)) (Z.of_nat (S j))
              = Valeur (tables_correcteur q (S (S j)))).
  { pose proof (iteration_correcteur_ajoute 0 (S j)) as H.
    replace (12 * 0 + S j)%nat with (S j) in H by lia.
    replace (S j + 1)%nat with (S (S j)) in H by lia.
    apply H. lia. }
  rewrite H. reflexivity.
Qed.

(** Months of a later year: each one appends an entry. *)
Lemma boucle_annee_suivante (a j : nat) :
  (a <> 0)%nat ->
  pour (iteration_correcteur q (Z.of_nat a)) (range (Z.of_nat j))
       (tables_correcteur q (12 * a))
  = Valeur (tables_correcteur q (12 * a + j)).
Proof.
  intros Ha. induction j as [| j IH].
  - change (range (Z.of_nat 0)) with (@nil Z). cbn [pour]. now rewrite Nat.add_0_r.
  - rewrite range_succ, pour_app, IH. cbn [bind pour].
    rewrite iteration_correcteur_ajoute by lia. cbn [bind].
    now replace (12 * a + j + 1)%nat with (12 * a + S j)%nat by lia.
Qed.

Lemma boucle_annees (y : nat) :
  pour (fun s annee => pour (iteration_correcteur q annee) (range 12) s)
       (range (Z.of_nat (S y))) ([1], [0%Z])
  = Valeur (tables_correcteur q (12 * S y)).
Proof.
  induction y as [| y IH].
  - change (range (Z.of_nat 1)) with [0%Z]. cbn [pour].
    change 12%Z with (Z.of_nat 12). rewrite boucle_premiere_annee. reflexivity.
  - rewrite range_succ, pour_app, IH. cbn [bind pour].
    change 12%Z with (Z.of_nat 12).
    rewrite boucle_annee_suivante by lia. cbn [bind].
    now replace (12 * S y + 12)%nat with (12 * S (S y))%nat by lia.
Qed.

End BoucleCorrecteur.

(** What the table holds: entry [k] is [(2 - f)^k], for [12 Y] months. *)
Lemma correcteur_inflation_valeur (r : R) (Y : Z) :
  -1 < r -> (1 <= Y)%Z ->
  correcteur_inflation r Y
  = Valeur (tables_correcteur (2 - Rpower (1 + r) (1 / 12)) (12 * Z.to_nat Y)).
Proof.
  intros Hr HY. unfold correcteur_inflation.
  rewrite facteur_mensuel_valeur by assumption. cbn [bind].
  rewrite (range_to_nat Y).
  destruct (Z.to_nat Y) as [| y] eqn:Ey; [lia |].
  apply boucle_annees.
Qed.

(** On real-valued runs of at least one year the table has one entry
    per month and entry [k] is the [k]-th power of [2 - (1+r)^(1/12)]. *)
Lemma correcteur_inflation_coefficients (r : R) (Y : Z) :
  -1 < r -> (1 <= Y)%Z ->
  exists coefficients labels_mois,
    correcteur_inflation r Y = Valeur (coefficients, labels_mois) /\
    length coefficients = (12 * Z.to_nat Y)%nat /\
    labels_mois = range (12 * Y) /\
    forall k, (k < 12 * Z.to_nat Y)%nat ->
      nth k coefficients 0 = (2 - Rpower (1 + r) (1 / 12)) ^ k.
Proof.
  intros Hr HY. do 2 eexists. split.
  - rewrite correcteur_inflation_valeur by assumption. reflexivity.
  - rewrite length_map, length_seq. split; [reflexivity |]. split.
    + unfold range. f_equal. f_equal. lia.
    + intros k Hk. now rewrite nth_map_seq.
Qed.

(** C6 at a failing input: with 2 % annual inflation over one year the
    table has 12 entries, entry 1 is 2 - 1.02^(1/12), and this is not the
    division by the erosion factor, 1 / 1.02^(1/12). *)
Theorem correcteur_inflation_deux_pour_cent :
  let f := Rpower (1 + 2 / 100) (1 / 12) in
  exists coefficients labels_mois,
    correcteur_inflation (2 / 100) 1 = Valeur (coefficients, labels_mois) /\
    length coefficients = 12%nat /\
    nth 1 coefficients 0 = 2 - f /\
    nth 1 coefficients 0 <> (1 / f) ^ 1.
Proof.
  intros f. eexists. eexists. split.
  - rewrite correcteur_inflation_valeur by (lra || lia). reflexivity.
  - change (12 * Z.to_nat 1)%nat with 12%nat.
    rewrite length_map, length_seq. split; [reflexivity |].
    rewrite nth_map_seq by lia. fold f. split; [simpl; ring |].
    assert (H12 : f ^ 12 = 102 / 100).
    { unfold f. rewrite facteur_puissance_12 by lra. lra. }
    assert (Hpos : 0 < f) by apply Rpower_positive.
    intros H. simpl in H.
    assert (Hq : f * (2 - f) = 1).
    { replace (2 - f) with ((2 - f) * 1) by ring. rewrite H. field. lra. }
    assert (Hf : f = 1) by nra.
    rewrite Hf, pow1 in H12. lra.
Qed.

(** ** [evaluer_strategies] *)

(** Unfolds a run of [evaluer_strategies] whose four component runs are
    known, down to the two last cumulative interests. *)
Ltac deroule_evaluer E1 E2 E3 E4 :=
  unfold evaluer_strategies;
  rewrite E1; cbn [bind]; rewrite E2; cbn [bind];
  rewrite E3; cbn [bind]; rewrite E4; cbn [bind];
  cbn [si_interets_mensuels_cumules si_variation_capital sc_cout_total_interets];
  rewrite !dernier_map_seq.


Lemma rapport_interrompu
    (C : R) (gc gi : nat -> R) (k : nat) (labels : list Z)
    (r c : R) (apports : list R) (v infl : R) :
  snd (afficher_rapport_simulation_interets_composes
         C (map gc (seq 0 (S k))) (map gi (seq 0 1)) labels r c apports v infl)
  = Leve IndexError.
Proof.
  unfold afficher_rapport_simulation_interets_composes.
  rewrite !dernier_map_seq. reflexivity.
Qed.

(** On its domain, and without display, the evaluator returns a triple. *)
Lemma evaluer_strategies_valeur (p : R) (N : Z) (r rc infl : R) :
  -1 < r -> -1 < rc -> Rpower (1 + rc) (1 / 12) - 1 <> 0 ->
  (1 <= N)%Z -> -1 < infl ->
  exists capital b1 b2,
    evaluer_strategies p N r rc false infl = Valeur (capital, b1, b2).
Proof.
  intros Hr Hrc Hic HN Hinf.
  pose proof (calculer_interets_composes_valeur r 0 p N infl Hr HN Hinf) as E1.
  pose proof (calculer_capital_valeur p rc N Hrc Hic) as E2. cbv zeta in E1, E2.
  set (capital := p * (1 - powerRZ (1 + (Rpower (1 + rc) (1 / 12) - 1)) (-1 * N))
                  / (Rpower (1 + rc) (1 / 12) - 1)) in *.
  pose proof (simuler_credit_valeur capital N rc infl Hrc Hic HN Hinf) as E3.
  pose proof (calculer_interets_composes_valeur r capital 0 N infl Hr HN Hinf) as E4.
  cbv zeta in E3, E4.
  destruct (Z.to_nat N) as [| n] eqn:En; [lia |].
  do 3 eexists. deroule_evaluer E1 E2 E3 E4. reflexivity.
Qed.



(** ** [comparer_strategies_selon_rentabilite_et_credit] *)

(** [int] keeps the sign and drops less than one unit. *)
Lemma int_encadrement (x : R) :
  (0 <= x -> IZR (int x) <= x < IZR (int x) + 1) /\
  (x < 0 -> IZR (int x) - 1 < x <= IZR (int x)).
Proof.
  unfold int. destruct (Rle_dec 0 x) as [Hx | Hx].
  - split; [| lra]. intros _. pose proof (base_Int_part x). lra.
  - split; [lra |]. intros _. pose proof (base_Int_part (- x)).
    rewrite opp_IZR. lra.
Qed.

(** Truncating a difference or the two terms differs by at most one. *)
Lemma int_difference (a b : R) :
  (Z.abs (int (a - b) - (int a - int b)) <= 1)%Z.
Proof.
  destruct (int_encadrement a) as [Ha1 Ha2].
  destruct (int_encadrement b) as [Hb1 Hb2].
  destruct (int_encadrement (a - b)) as [Hd1 Hd2].
  assert (H : -2 < IZR (int (a - b) - (int a - int b)) < 2).
  { rewrite !minus_IZR.
    destruct (Rle_dec 0 a), (Rle_dec 0 b), (Rle_dec 0 (a - b)); lra. }
  destruct H as [Hlo Hhi].
  apply lt_IZR in Hlo. apply lt_IZR in Hhi. lia.
Qed.

Section Balayage.

Variables (p : R) (N : Z) (infl : R).
Hypothesis duree_positive : (1 <= N)%Z.
Hypothesis inflation_admise : -1 < infl.

Let b1 (r rc : R) : R := fst (benefices_nets p N infl r rc).
Let b2 (r rc : R) : R := snd (benefices_nets p N infl r rc).

Lemma evaluer_strategies_benefices (r rc : R) :
  rentabilite_admise r -> credit_admis rc ->
  exists capital,
    evaluer_strategies p N r rc false infl = Valeur (capital, b1 r rc, b2 r rc).
Proof.
  intros Hr [Hrc Hic].
  destruct (evaluer_strategies_valeur p N r rc infl Hr Hrc Hic
              duree_positive inflation_admise)
    as (capital & x1 & x2 & E).
  exists capital. unfold b1, b2, benefices_nets. rewrite E. reflexivity.
Qed.

(** A row of the three matrices, for one return rate. *)
Lemma boucle_taux_credit (r : R) (credits : list R) (a n2 n1 : list Z) :
  rentabilite_admise r -> Forall credit_admis credits ->
  pour (iteration_taux_credit p N r infl) credits (a, n2, n1)
  = Valeur (a ++ map (fun rc => int (b2 r rc - b1 r rc)) credits,
            n2 ++ map (fun rc => int (b2 r rc)) credits,
            n1 ++ map (fun rc => int (b1 r rc)) credits).
Proof.
  intros Hr Hc. revert a n2 n1.
  induction Hc as [| rc credits Hrc Hc IH]; intros a n2 n1.
  - cbn [pour map]. now rewrite !app_nil_r.
  - cbn [pour map]. unfold iteration_taux_credit at 1.
    destruct (evaluer_strategies_benefices r rc Hr Hrc) as [capital E].
    rewrite E. cbn [bind]. rewrite IH, <- !app_assoc. reflexivity.
Qed.

(** The three matrices, one row per return rate. *)
Lemma boucle_taux_rentabilite (rentabilites credits : list R) (A M2 M1 : matrice) :
  Forall rentabilite_admise rentabilites -> Forall credit_admis credits ->
  pour (iteration_taux_rentabilite p N credits infl) rentabilites (A, M2, M1)
  = Valeur
      (A ++ map (fun r => map (fun rc => int (b2 r rc - b1 r rc)) credits) rentabilites,
       M2 ++ map (fun r => map (fun rc => int (b2 r rc)) credits) rentabilites,
       M1 ++ map (fun r => map (fun rc => int (b1 r rc)) credits) rentabilites).
Proof.
  intros Hr Hc. revert A M2 M1.
  induction Hr as [| r rentabilites Hr Hrs IH]; intros A M2 M1.
  - cbn [pour map]. now rewrite !app_nil_r.
  - cbn [pour map]. unfold iteration_taux_rentabilite at 1.
    rewrite boucle_taux_credit by assumption. cbn [bind app].
    rewrite IH, <- !app_assoc. reflexivity.
Qed.

End Balayage.

Lemma nth_map_defaut {A B : Type} (g : A -> B) (l : list A) (k : nat) (d : A) (e : B) :
  (k < length l)%nat -> nth k (map g l) e = g (nth k l d).
Proof.
  intros Hk. rewrite (nth_indep _ e (g d)) by now rewrite length_map.
  apply map_nth.
Qed.

(** C9: when every rate of the grid lets the evaluator return, the sweep
    returns three matrices with one row per return rate and one column
    per credit rate; the entries are the evaluator's results truncated by
    [int], and the stored advantage differs from stored net benefit 2
    minus stored benefit 1 by at most 1. *)
Theorem comparer_strategies_matrices
    (p : R) (N : Z) (rentabilites credits : list R) (infl : R)
    (HN : (1 <= N)%Z) (Hinf : -1 < infl)
    (Hr : Forall rentabilite_admise rentabilites)
    (Hc : Forall credit_admis credits) :
  exists avantage nets2 benef1,
    comparer_strategies_selon_rentabilite_et_credit p N rentabilites credits infl
    = Valeur (avantage, nets2, benef1) /\
    length avantage = length rentabilites /\
    length nets2 = length rentabilites /\
    length benef1 = length rentabilites /\
    forall i, (i < length rentabilites)%nat ->
      length (nth i avantage []) = length credits /\
      length (nth i nets2 []) = length credits /\
      length (nth i benef1 []) = length credits /\
      forall j, (j < length credits)%nat ->
        exists capital x1 x2,
          evaluer_strategies p N (nth i rentabilites 0) (nth j credits 0) false infl
          = Valeur (capital, x1, x2) /\
          nth j (nth i avantage []) 0%Z = int (x2 - x1) /\
          nth j (nth i nets2 []) 0%Z = int x2 /\
          nth j (nth i benef1 []) 0%Z = int x1 /\
          (Z.abs (nth j (nth i avantage []) 0
                  - (nth j (nth i nets2 []) 0 - nth j (nth i benef1 []) 0)) <= 1)%Z.
Proof.
  do 3 eexists. split.
  - unfold comparer_strategies_selon_rentabilite_et_credit.
    rewrite (boucle_taux_rentabilite p N infl HN Hinf) by assumption.
    cbn [app]. reflexivity.
  - rewrite !length_map. do 3 (split; [reflexivity |]).
    intros i Hi. rewrite !(nth_map_defaut _ rentabilites i 0) by assumption.
    rewrite !length_map. do 3 (split; [reflexivity |]).
    intros j Hj. rewrite !(nth_map_defaut _ credits j 0) by assumption.
    assert (Hri : rentabilite_admise (nth i rentabilites 0)).
    { rewrite Forall_forall in Hr. apply Hr. now apply nth_In. }
    assert (Hcj : credit_admis (nth j credits 0)).
    { rewrite Forall_forall in Hc. apply Hc. now apply nth_In. }
    destruct (evaluer_strategies_benefices p N infl HN Hinf _ _ Hri Hcj) as [capital E].
    do 3 eexists. split; [exact E |].
    do 3 (split; [reflexivity |]). apply int_difference.
Qed.

Lemma comparer_strategies_matrices_witness :
  exists avantage nets2 benef1,
    comparer_strategies_selon_rentabilite_et_credit
      1000 120 [4 / 100; 6 / 100] [2 / 100; 3 / 100; 5 / 100] (1 / 100)
    = Valeur (avantage, nets2, benef1) /\
    length avantage = 2%nat /\
    length (nth 1 avantage []) = 3%nat.
Proof.
  destruct (comparer_strategies_matrices
              1000 120 [4 / 100; 6 / 100] [2 / 100; 3 / 100; 5 / 100] (1 / 100))
    as (a & n2 & n1 & E & Ha & _ & _ & H).
  - lia.
  - lra.
  - repeat constructor; unfold rentabilite_admise; lra.
  - repeat constructor; try (apply taux_mensuel_non_nul); lra.
  - exists a, n2, n1. split; [exact E |]. split; [exact Ha |].
    destruct (H 1%nat) as [H1 _]; [simpl; lia | exact H1].
Defined.

(** * Edge and error behaviour *)

(** ** Rates at and below -100 % *)

(** From -100 % upwards the monthly factor is a real number, and it
    vanishes only at -100 %. *)
Lemma facteur_mensuel_reel (t : R) :
  -1 <= t ->
  exists v, facteur_mensuel t = Valeur v /\ 0 <= v /\ (v = 0 <-> t = -1).
Proof.
  intros Ht. unfold facteur_mensuel, puissance.
  destruct (Rlt_dec 0 (1 + t)) as [Hp | Hn].
  - exists (Rpower (1 + t) (1 / 12)). split; [reflexivity |].
    pose proof (Rpower_positive (1 + t) (1 / 12)). split; [lra |]. split; lra.
  - destruct (Req_dec_T (1 + t) 0) as [_ | Hz]; [| lra].
    destruct (Rlt_dec 0 (1 / 12)) as [_ | H12]; [| lra].
    exists 0. split; [reflexivity |]. split; [lra |]. split; lra.
Qed.

Lemma facteur_mensuel_complexe (t : R) : t < -1 -> facteur_mensuel t = Complexe.
Proof.
  intros Ht. unfold facteur_mensuel, puissance.
  destruct (Rlt_dec 0 (1 + t)) as [Hp | _]; [lra |].
  destruct (Req_dec_T (1 + t) 0) as [Hz | _]; [lra | reflexivity].
Qed.

Lemma range_negatif (n : Z) : (n <= 0)%Z -> range n = [].
Proof. intros Hn. unfold range. now replace (Z.to_nat n) with 0%nat by lia. Qed.

Lemma range_positif (n : Z) :
  (1 <= n)%Z -> exists reste, range n = 0%Z :: reste.
Proof.
  intros Hn. unfold range. destruct (Z.to_nat n) as [| k] eqn:E; [lia |].
  simpl. eexists. reflexivity.
Qed.

(** A simulation over no month at all has no final capital to read:
    [capitals_mensuels[-1]] raises [IndexError]. *)
Theorem calculer_interets_composes_sans_mois
    (r C c : R) (N : Z) (infl : R)
    (Hr : -1 <= r) (Hinf : -1 <= infl) (HN : (N <= 0)%Z) :
  calculer_interets_composes r C c N infl = Leve IndexError.
Proof.
  destruct (facteur_mensuel_reel r Hr) as (p & Ep & _).
  destruct (facteur_mensuel_reel infl Hinf) as (f & Ef & _).
  unfold calculer_interets_composes. rewrite Ep, Ef. cbn [bind].
  rewrite range_negatif by assumption. reflexivity.
Qed.

Lemma calculer_interets_composes_sans_mois_witness :
  calculer_interets_composes (6 / 100) 10000 100 0 (1 / 100) = Leve IndexError.
Proof.
  apply calculer_interets_composes_sans_mois; [lra | lra | lia].
Defined.

(** An inflation of exactly -100 % makes the monthly coefficient 0, and
    the first deflation of the contribution divides by it. *)
Theorem calculer_interets_composes_inflation_moins_cent
    (r C c : R) (N : Z) (Hr : -1 <= r) (HN : (1 <= N)%Z) :
  calculer_interets_composes r C c N (-1) = Leve ZeroDivisionError.
Proof.
  destruct (facteur_mensuel_reel r Hr) as (p & Ep & _).
  destruct (facteur_mensuel_reel (-1)) as (f & Ef & _ & Hf); [lra |].
  assert (f = 0) as -> by now apply Hf.
  destruct (range_positif N HN) as [reste Er].
  unfold calculer_interets_composes. rewrite Ep, Ef. cbn [bind].
  rewrite Er. cbn [pour]. unfold iteration_interets at 1.
  cbn [ei_apports_mensuels]. rewrite div_par_zero. reflexivity.
Qed.

Lemma calculer_interets_composes_inflation_moins_cent_witness :
  calculer_interets_composes (6 / 100) 10000 100 120 (-1) = Leve ZeroDivisionError.
Proof.
  apply calculer_interets_composes_inflation_moins_cent; [lra | lia].
Defined.

(** Below -100 % of inflation the twelfth root is a complex number and
    [float(...)] rejects it, in both simulators and whatever the other
    arguments. *)
Theorem inflation_sous_moins_cent
    (r C c P : R) (N : Z) (infl : R) (Hr : -1 <= r) (Hinf : infl < -1) :
  calculer_interets_composes r C c N infl = Leve TypeError /\
  simuler_credit P N r infl = Leve TypeError.
Proof.
  destruct (facteur_mensuel_reel r Hr) as (p & Ep & _).
  pose proof (facteur_mensuel_complexe infl Hinf) as Ef.
  split.
  - unfold calculer_interets_composes. rewrite Ep, Ef. reflexivity.
  - unfold simuler_credit. rewrite Ep, Ef. reflexivity.
Qed.

Lemma inflation_sous_moins_cent_witness :
  calculer_interets_composes (6 / 100) 10000 100 120 (-2) = Leve TypeError /\
  simuler_credit 100000 120 (6 / 100) (-2) = Leve TypeError.
Proof.
  apply inflation_sous_moins_cent; lra.
Defined.

(** ** Degenerate credits *)

Lemma facteur_mensuel_taux_nul : facteur_mensuel 0 = Valeur 1.
Proof.
  rewrite facteur_mensuel_valeur by lra.
  replace (1 + 0) with 1 by ring. now rewrite Rpower_un.
Qed.

(** A whole power of a positive base other than 1 is 1 only at
    exponent 0. *)
Lemma powerRZ_un_seulement_en_zero (x : R) (k : Z) :
  0 < x -> x <> 1 -> k <> 0%Z -> powerRZ x k - 1 <> 0.
Proof.
  intros Hx Hx1 Hk. destruct (Z_lt_le_dec k 0) as [Hneg | Hpos].
  - replace k with (- (- k))%Z by lia. rewrite powerRZ_neg'.
    assert (Hd : powerRZ x (- k) - 1 <> 0)
      by (apply powerRZ_different_de_un; [assumption | assumption | lia]).
    assert (Hp : 0 < powerRZ x (- k)) by (apply powerRZ_lt; assumption).
    intros E. apply Hd.
    assert (Hi : / powerRZ x (- k) = 1) by lra.
    rewrite <- (Rinv_inv (powerRZ x (- k))), Hi, Rinv_1. ring.
  - apply powerRZ_different_de_un; [assumption | assumption | lia].
Qed.

(** At a credit rate of 0 the installment formula divides by
    [(1+0)^N - 1 = 0]: no schedule is produced, whatever the principal and
    the term. *)
Theorem simuler_credit_taux_nul
    (P : R) (N : Z) (infl : R) (Hinf : -1 <= infl) :
  simuler_credit P N 0 infl = Leve ZeroDivisionError.
Proof.
  destruct (facteur_mensuel_reel infl Hinf) as (f & Ef & _).
  unfold simuler_credit. rewrite facteur_mensuel_taux_nul, Ef. cbn [bind].
  rewrite puissance_entiere_valeur by (left; lra). cbn [bind].
  rewrite div_leve; [reflexivity |].
  replace (1 + (1 - 1)) with 1 by ring. rewrite powerRZ_R1. ring.
Qed.

Lemma simuler_credit_taux_nul_witness :
  simuler_credit 100000 120 0 (1 / 100) = Leve ZeroDivisionError.
Proof.
  apply simuler_credit_taux_nul. lra.
Defined.

(** A credit of zero installments is rejected the same way: the first
    payment divides by [(1+i)^0 - 1 = 0]. *)
Theorem simuler_credit_sans_mensualite
    (P r infl : R) (Hr : -1 <= r) (Hinf : -1 <= infl) :
  simuler_credit P 0 r infl = Leve ZeroDivisionError.
Proof.
  destruct (facteur_mensuel_reel r Hr) as (p & Ep & _).
  destruct (facteur_mensuel_reel infl Hinf) as (f & Ef & _).
  unfold simuler_credit. rewrite Ep, Ef. cbn [bind].
  rewrite puissance_entiere_valeur by (right; lia). cbn [bind].
  rewrite div_leve; [reflexivity |]. rewrite powerRZ_O. ring.
Qed.

Lemma simuler_credit_sans_mensualite_witness :
  simuler_credit 100000 0 (3 / 100) (1 / 100) = Leve ZeroDivisionError.
Proof.
  apply simuler_credit_sans_mensualite; lra.
Defined.

(** A negative number of installments is not rejected: the loop does not
    run, the seeds are popped, and the function returns a first payment
    with empty series and a total interest cost of 0. *)
Theorem simuler_credit_duree_negative
    (P : R) (N : Z) (r infl : R)
    (Hr : -1 < r) (Hi0 : Rpower (1 + r) (1 / 12) - 1 <> 0)
    (HN : (N < 0)%Z) (Hinf : -1 <= infl) :
  let i := Rpower (1 + r) (1 / 12) - 1 in
  simuler_credit P N r infl =
  Valeur {| sc_premiere_mensualite :=
              P * i * powerRZ (1 + i) N / (powerRZ (1 + i) N - 1);
            sc_cout_total_interets := 0;
            sc_capital_rembourse_par_mois := [];
            sc_capital_restant_par_mois := [];
            sc_interets_mensuels := [];
            sc_labels_mois := [] |}.
Proof.
  intros i. destruct (facteur_mensuel_reel infl Hinf) as (f & Ef & _).
  unfold simuler_credit. rewrite facteur_mensuel_valeur by assumption.
  rewrite Ef. cbn [bind]. fold i.
  assert (Hx : 0 < 1 + i)
    by (unfold i; pose proof (Rpower_positive (1 + r) (1 / 12)); lra).
  assert (Hx1 : 1 + i <> 1) by (unfold i in *; lra).
  rewrite puissance_entiere_valeur by (left; lra). cbn [bind].
  rewrite div_valeur by (apply powerRZ_un_seulement_en_zero; [| | lia]; assumption).
  cbn [bind]. rewrite range_negatif by lia. reflexivity.
Qed.

Lemma simuler_credit_duree_negative_witness :
  exists res,
    simuler_credit 100000 (-12) (3 / 100) 0 = Valeur res /\
    sc_interets_mensuels res = [] /\ sc_cout_total_interets res = 0.
Proof.
  eexists. split.
  - apply (simuler_credit_duree_negative 100000 (-12) (3 / 100) 0);
      [lra | apply taux_mensuel_non_nul; lra | lia | lra].
  - split; reflexivity.
Defined.

(** * Further properties of the schedules *)

(** ** Credit without inflation *)

Lemma taux_mensuel_positif (r : R) : 0 < r -> 0 < Rpower (1 + r) (1 / 12) - 1.
Proof.
  intros Hr. pose proof (facteur_puissance_12 (1 + r)) as H12.
  pose proof (Rpower_positive (1 + r) (1 / 12)) as Hp.
  destruct (Rlt_dec 1 (Rpower (1 + r) (1 / 12))) as [H | H]; [lra | exfalso].
  assert (Hle : Rpower (1 + r) (1 / 12) ^ 12 <= 1 ^ 12) by (apply pow_incr; lra).
  rewrite pow1, H12 in Hle by lra. lra.
Qed.

Section CreditSansInflation.

Variables P i : R.
Variable n : nat.
Hypothesis base_positive : 0 < 1 + i.
Hypothesis base_non_unite : 1 + i <> 1.

(** Interest paid over the first [j] months: the installments paid less
    the principal repaid. *)
Lemma somme_interets_sans_inflation (j : nat) :
  (j <= n)%nat ->
  sum (map (interet_credit P i 1 (Z.of_nat n)) (seq 1 j))
  = INR j * (P * i * powerRZ (1 + i) (Z.of_nat n)
             / (powerRZ (1 + i) (Z.of_nat n) - 1))
    - (P - solde_credit P i 1 (Z.of_nat n) j).
Proof.
  induction j as [| j IH]; intros Hj.
  - unfold sum. simpl. ring.
  - rewrite seq_S, map_app. cbn [map Nat.add]. rewrite sum_app, IH by lia.
    rewrite S_INR. unfold interet_credit. replace (S j - 1)%nat with j by lia.
    cbn [solde_credit].
    rewrite (mensualite_constante P i n base_positive base_non_unite j) by lia.
    assert (Hd : powerRZ (1 + i) (Z.of_nat n) - 1 <> 0)
      by (apply powerRZ_different_de_un; [assumption | assumption | lia]).
    set (X := powerRZ (1 + i) (Z.of_nat n)) in *. field. exact Hd.
Qed.


End CreditSansInflation.

(** Without inflation the total interest cost is what the commented-out
    formula of the source says: the installments paid, [N] times the
    first payment, less the principal borrowed. *)
Theorem simuler_credit_cout_sans_inflation
    (P : R) (N : Z) (r : R)
    (Hr : -1 < r) (Hi0 : Rpower (1 + r) (1 / 12) - 1 <> 0) (HN : (1 <= N)%Z) :
  exists res,
    simuler_credit P N r 0 = Valeur res /\
    sc_cout_total_interets res = IZR N * sc_premiere_mensualite res - P.
Proof.
  eexists. split.
  - apply simuler_credit_valeur; [assumption | assumption | assumption | lra].
  - cbn [sc_cout_total_interets sc_premiere_mensualite].
    replace (1 + 0) with 1 by ring. rewrite Rpower_un.
    set (i := Rpower (1 + r) (1 / 12) - 1) in *.
    set (n := Z.to_nat N).
    assert (HNn : N = Z.of_nat n) by (unfold n; lia).
    assert (Hn : (0 < n)%nat) by (unfold n; lia).
    clearbody n. subst N.
    assert (Hx : 0 < 1 + i)
      by (unfold i; pose proof (Rpower_positive (1 + r) (1 / 12)); lra).
    assert (Hx1 : 1 + i <> 1) by (unfold i in *; lra).
    rewrite (somme_interets_sans_inflation P i n Hx Hx1) by lia.
    rewrite (solde_sans_inflation P i n Hx Hx1) by lia.
    rewrite <- INR_IZR_INZ.
    assert (Hd : (1 + i) ^ n - 1 <> 0).
    { pose proof (pow_different_de_un (1 + i) n Hx Hx1 Hn). lra. }
    unfold Rdiv. replace ((1 + i) ^ n - (1 + i) ^ n) with 0 by ring. ring.
Qed.

Lemma simuler_credit_cout_sans_inflation_witness :
  exists res,
    simuler_credit 100000 120 (3 / 100) 0 = Valeur res /\
    sc_cout_total_interets res = IZR 120 * sc_premiere_mensualite res - 100000.
Proof.
  apply (simuler_credit_cout_sans_inflation 100000 120 (3 / 100));
    [lra | apply taux_mensuel_non_nul; lra | lia].
Defined.



(** ** Compound interest: wealth, inflation and erosion *)


(** Capital plus cumulative interest grows by the monthly return, is
    deflated by the monthly inflation factor, and receives the deflated
    contribution of the month. *)
Theorem calculer_interets_composes_patrimoine
    (r C c : R) (N : Z) (infl : R)
    (Hr : -1 < r) (HN : (1 <= N)%Z) (Hi : -1 < infl) :
  let m := Rpower (1 + r) (1 / 12) - 1 in
  let f := Rpower (1 + infl) (1 / 12) in
  exists res,
    calculer_interets_composes r C c N infl = Valeur res /\
    let patrimoine k :=
      nth k (si_capitals_mensuels res) 0
      + nth k (si_interets_mensuels_cumules res) 0 in
    patrimoine 0%nat = (C + c) / f /\
    forall k, (0 < k < Z.to_nat N)%nat ->
      patrimoine k
      = patrimoine (k - 1)%nat * (1 + m) / f
        + nth k (si_apports_mensuels_monnaie_actuelle res) 0.
Proof.
  intros m f. eexists. split.
  - apply calculer_interets_composes_valeur; assumption.
  - cbn [si_capitals_mensuels si_interets_mensuels_cumules
         si_apports_mensuels_monnaie_actuelle]. fold m f.
    assert (Hf : f <> 0) by apply Rpower_non_nul.
    split.
    + rewrite !nth_map_seq by lia. cbn [serie_interets fst snd].
      unfold apport_actualise. simpl. field. exact Hf.
    + intros k [Hk0 Hk]. destruct k as [| j]; [lia |].
      replace (S j - 1)%nat with j by lia. rewrite !nth_map_seq by lia.
      cbn [serie_interets]. destruct (serie_interets C c m f j) as [ca it].
      cbn [fst snd]. field. exact Hf.
Qed.

Lemma calculer_interets_composes_patrimoine_witness :
  exists res,
    calculer_interets_composes (6 / 100) 10000 100 120 (1 / 100) = Valeur res /\
    nth 0 (si_capitals_mensuels res) 0
    + nth 0 (si_interets_mensuels_cumules res) 0
    = (10000 + 100) / Rpower (1 + 1 / 100) (1 / 12).
Proof.
  destruct (calculer_interets_composes_patrimoine (6 / 100) 10000 100 120 (1 / 100))
    as (res & E & H0 & _); [lra | lia | lra |].
  exists res. split; assumption.
Defined.

Lemma capital_sans_inflation (C c m : R) (k : nat) :
  fst (serie_interets C c m 1 k) = C + INR (S k) * c.
Proof.
  induction k as [| k IH].
  - cbn [serie_interets fst]. unfold apport_actualise. rewrite pow1. simpl. field.
  - cbn [serie_interets]. destruct (serie_interets C c m 1 k) as [ca it].
    cbn [fst] in *. rewrite IH. unfold apport_actualise. rewrite pow1.
    rewrite (S_INR (S k)). field.
Qed.

Lemma somme_apports_sans_inflation (c : R) (n : nat) :
  sum (map (apport_actualise c 1) (seq 0 n)) = INR n * c.
Proof.
  induction n as [| n IH].
  - unfold sum. simpl. ring.
  - rewrite seq_S, map_app. cbn [map Nat.add]. rewrite sum_app, IH, S_INR.
    unfold apport_actualise. rewrite pow1. field.
Qed.



Section Erosion.

Variables C c m f : R.
Hypothesis capital_positif : 0 <= C.
Hypothesis apport_positif : 0 <= c.
Hypothesis facteur_au_moins_un : 1 <= f.




End Erosion.



Lemma interet_sans_rentabilite (C c f : R) (k : nat) :
  snd (serie_interets C c 0 f k) = 0.
Proof.
  induction k as [| k IH]; [reflexivity |].
  cbn [serie_interets]. destruct (serie_interets C c 0 f k) as [ca it].
  cbn [snd] in *. rewrite IH. unfold Rdiv. ring.
Qed.

(** At a return rate of 0 % no interest is ever recorded, whatever the
    inflation. *)
Theorem calculer_interets_composes_sans_rentabilite
    (C c : R) (N : Z) (infl : R) (HN : (1 <= N)%Z) (Hi : -1 < infl) :
  exists res,
    calculer_interets_composes 0 C c N infl = Valeur res /\
    Forall (fun interet => interet = 0) (si_interets_mensuels_cumules res).
Proof.
  eexists. split.
  - apply calculer_interets_composes_valeur; [lra | assumption | assumption].
  - cbn [si_interets_mensuels_cumules].
    replace (1 + 0) with 1 by ring. rewrite Rpower_un.
    replace (1 - 1) with 0 by ring.
    apply Forall_forall. intros x Hx. apply in_map_iff in Hx.
    destruct Hx as (k & <- & _). apply interet_sans_rentabilite.
Qed.

Lemma calculer_interets_composes_sans_rentabilite_witness :
  exists res,
    calculer_interets_composes 0 10000 100 120 (2 / 100) = Valeur res /\
    Forall (fun interet => interet = 0) (si_interets_mensuels_cumules res).
Proof.
  apply (calculer_interets_composes_sans_rentabilite 10000 100 120 (2 / 100));
    [lia | lra].
Defined.

(** ** Borrowable capital *)

Lemma pow_strictement_croissante (a b : R) (k : nat) :
  0 <= a < b -> a ^ S k < b ^ S k.
Proof.
  intros [Ha Hab]. induction k as [| k IH]; [simpl; lra |].
  change (a ^ S (S k)) with (a * a ^ S k).
  change (b ^ S (S k)) with (b * b ^ S k).
  assert (0 <= a ^ S k) by (apply pow_le; assumption).
  nra.
Qed.

(** A geometric sum of [n] terms stays below [n] times its largest
    term. *)
Lemma somme_geometrique_majoree (i : R) (n : nat) :
  0 < i -> (1 + i) ^ S n - 1 < INR (S n) * i * (1 + i) ^ S n.
Proof.
  intros Hi. induction n as [| n IH].
  - simpl. nra.
  - rewrite (S_INR (S n)).
    change ((1 + i) ^ S (S n)) with ((1 + i) * (1 + i) ^ S n).
    assert (H1 : 1 < (1 + i) ^ S n) by (apply Rlt_pow_R1; [lra | lia]).
    assert (H0 : 0 <= INR (S n)) by apply pos_INR.
    set (X := (1 + i) ^ S n) in *. set (k := INR (S n)) in *.
    assert (0 <= k * i * X) by (apply Rmult_le_pos; [apply Rmult_le_pos |]; lra).
    nra.
Qed.

(** At a positive rate a positive payment buys a positive capital,
    smaller than the [N] payments put end to end. *)
Theorem calculer_capital_encadre
    (p r : R) (N : Z) (Hp : 0 < p) (Hr : 0 < r) (HN : (1 <= N)%Z) :
  exists capital,
    calculer_capital p r N = Valeur capital /\
    0 < capital < p * IZR N.
Proof.
  pose proof (taux_mensuel_positif r Hr) as Hi.
  eexists. split.
  - apply calculer_capital_valeur; lra.
  - set (i := Rpower (1 + r) (1 / 12) - 1) in *.
    destruct (Z.to_nat N) as [| n] eqn:En; [lia |].
    replace (-1 * N)%Z with (- Z.of_nat (S n))%Z by lia.
    replace N with (Z.of_nat (S n)) by lia.
    rewrite powerRZ_neg', <- pow_powerRZ, <- INR_IZR_INZ.
    pose proof (somme_geometrique_majoree i n Hi) as Hs.
    assert (HX : 1 < (1 + i) ^ S n) by (apply Rlt_pow_R1; [lra | lia]).
    set (X := (1 + i) ^ S n) in *. set (k := INR (S n)) in *.
    assert (Hu : 0 < / X) by (apply Rinv_0_lt_compat; lra).
    assert (Hv : 0 < / i) by (apply Rinv_0_lt_compat; lra).
    assert (HXu : X * / X = 1) by (apply Rinv_r; lra).
    assert (Hiv : i * / i = 1) by (apply Rinv_r; lra).
    assert (H1 : 0 < 1 - / X < k * i).
    { split; [nra |].
      assert ((X - 1) * / X < k * i * X * / X)
        by (apply Rmult_lt_compat_r; assumption).
      nra. }
    unfold Rdiv. split.
    + apply Rmult_lt_0_compat; [apply Rmult_lt_0_compat; lra | lra].
    + assert (H2 : (1 - / X) * / i < k * i * / i)
        by (apply Rmult_lt_compat_r; lra).
      rewrite (Rmult_assoc k), Hiv, Rmult_1_r in H2.
      rewrite Rmult_assoc. apply Rmult_lt_compat_l; assumption.
Qed.

Lemma calculer_capital_encadre_witness :
  exists capital,
    calculer_capital 1000 (5 / 100) 120 = Valeur capital /\
    0 < capital < 1000 * IZR 120.
Proof.
  apply (calculer_capital_encadre 1000 (5 / 100) 120); [lra | lra | lia].
Defined.

(** ** The inflation table *)

Lemma correcteur_inflation_coefficients_witness :
  exists coefficients labels_mois,
    correcteur_inflation (2 / 100) 10 = Valeur (coefficients, labels_mois) /\
    length coefficients = 120%nat /\
    labels_mois = range 120.
Proof.
  destruct (correcteur_inflation_coefficients (2 / 100) 10)
    as (co & la & E & Hl & Hla & _); [lra | lia |].
  exists co, la. split; [exact E | split; [exact Hl | exact Hla]].
Defined.

(** Asked for no year at all (or a negative number of years), the table
    is not empty: it keeps its seed, coefficient 1 for month 0. *)
Theorem correcteur_inflation_sans_annee (r : R) (Y : Z)
    (Hr : -1 <= r) (HY : (Y <= 0)%Z) :
  correcteur_inflation r Y = Valeur ([1], [0%Z]).
Proof.
  destruct (facteur_mensuel_reel r Hr) as (p & Ep & _).
  unfold correcteur_inflation. rewrite Ep. cbn [bind].
  rewrite (range_negatif Y) by assumption. reflexivity.
Qed.

Lemma correcteur_inflation_sans_annee_witness :
  correcteur_inflation (2 / 100) 0 = Valeur ([1], [0%Z]).
Proof.
  apply correcteur_inflation_sans_annee; [lra | lia].
Defined.

(** The coefficient the table multiplies by, [2 - f], is below the
    discount [1 / f] as soon as the rate is not 0. *)
Lemma coefficient_sous_actualisation (f : R) :
  0 < f -> f <> 1 -> 2 - f < 1 / f.
Proof.
  intros Hf Hf1. apply (Rmult_lt_reg_r f); [assumption |].
  replace (1 / f * f) with 1 by (field; lra).
  assert (0 < (f - 1) * (f - 1)) by (destruct (Rlt_dec f 1); nra).
  nra.
Qed.

(** For every inflation rate other than 0, up to a monthly factor of 2
    (an annual rate of 409500 %), every entry of the table after month 0
    is strictly below the exact present-value factor [1 / f^k]: the table
    overstates the erosion. *)
Theorem correcteur_inflation_sous_estime
    (r : R) (Y : Z) (k : nat)
    (Hr : -1 < r) (Hr0 : r <> 0) (Hmax : r <= 4095) (HY : (1 <= Y)%Z)
    (Hk : (1 <= k < 12 * Z.to_nat Y)%nat) :
  exists coefficients labels_mois,
    correcteur_inflation r Y = Valeur (coefficients, labels_mois) /\
    0 <= nth k coefficients 0 < (1 / Rpower (1 + r) (1 / 12)) ^ k.
Proof.
  do 2 eexists. split.
  - rewrite correcteur_inflation_valeur by assumption. reflexivity.
  - rewrite nth_map_seq by lia.
    set (f := Rpower (1 + r) (1 / 12)).
    assert (Hf : 0 < f) by apply Rpower_positive.
    assert (H12 : f ^ 12 = 1 + r) by (apply facteur_puissance_12; lra).
    assert (Hf1 : f <> 1) by (intros E; rewrite E, pow1 in H12; lra).
    assert (Hf2 : f <= 2).
    { destruct (Rle_dec f 2) as [H | H]; [exact H | exfalso].
      assert (2 ^ 12 < f ^ 12) by (apply pow_strictement_croissante; lra).
      rewrite H12 in *. lra. }
    split; [apply pow_le; lra |].
    destruct k as [| j]; [lia |].
    apply pow_strictement_croissante. split; [lra |].
    now apply coefficient_sous_actualisation.
Qed.

Lemma correcteur_inflation_sous_estime_witness :
  exists coefficients labels_mois,
    correcteur_inflation (2 / 100) 10 = Valeur (coefficients, labels_mois) /\
    0 <= nth 119 coefficients 0 < (1 / Rpower (1 + 2 / 100) (1 / 12)) ^ 119.
Proof.
  apply (correcteur_inflation_sous_estime (2 / 100) 10 119);
    [lra | lra | lra | lia | simpl; lia].
Defined.

(** ** Where the evaluator and the sweep stop *)

Lemma calculer_capital_division_par_zero (p : R) (N : Z) :
  calculer_capital p 0 N = Leve ZeroDivisionError.
Proof.
  unfold calculer_capital. rewrite facteur_mensuel_taux_nul. cbn [bind].
  rewrite puissance_entiere_valeur by (left; lra). cbn [bind].
  apply div_leve. ring.
Qed.

Lemma evaluer_strategies_division_par_zero
    (p : R) (N : Z) (r : R) (afficher : bool) (infl : R) :
  -1 < r -> (1 <= N)%Z -> -1 < infl ->
  evaluer_strategies p N r 0 afficher infl = Leve ZeroDivisionError.
Proof.
  intros Hr HN Hinf.
  pose proof (calculer_interets_composes_valeur r 0 p N infl Hr HN Hinf) as E1.
  cbv zeta in E1. unfold evaluer_strategies. rewrite E1. cbn [bind].
  rewrite calculer_capital_division_par_zero. reflexivity.
Qed.

(** A credit rate of 0 % stops the evaluator: once the saving strategy
    has been simulated, sizing the capital divides by the zero monthly
    rate. *)
Theorem evaluer_strategies_credit_taux_nul
    (p : R) (N : Z) (r : R) (afficher : bool) (infl : R)
    (Hr : -1 < r) (HN : (1 <= N)%Z) (Hinf : -1 < infl) :
  evaluer_strategies p N r 0 afficher infl = Leve ZeroDivisionError.
Proof.
  pose proof (calculer_interets_composes_valeur r 0 p N infl Hr HN Hinf) as E1.
  cbv zeta in E1. unfold evaluer_strategies. rewrite E1. cbn [bind].
  unfold calculer_capital. rewrite facteur_mensuel_taux_nul. cbn [bind].
  rewrite puissance_entiere_valeur by (left; lra). cbn [bind].
  rewrite div_leve by ring. reflexivity.
Qed.

Lemma evaluer_strategies_credit_taux_nul_witness :
  evaluer_strategies 1000 120 (6 / 100) 0 false (1 / 100) = Leve ZeroDivisionError.
Proof.
  apply evaluer_strategies_credit_taux_nul; [lra | lia | lra].
Defined.

(** One credit rate of 0 % anywhere in the list stops the whole sweep:
    no matrix is returned, not even the cells computed before it. *)
Theorem comparer_strategies_credit_taux_nul
    (p : R) (N : Z) (r : R) (rentabilites avant apres : list R) (infl : R)
    (HN : (1 <= N)%Z) (Hinf : -1 < infl)
    (Hr : rentabilite_admise r) (Havant : Forall credit_admis avant) :
  comparer_strategies_selon_rentabilite_et_credit
    p N (r :: rentabilites) (avant ++ 0 :: apres) infl
  = Leve ZeroDivisionError.
Proof.
  unfold comparer_strategies_selon_rentabilite_et_credit. cbn [pour].
  unfold iteration_taux_rentabilite at 1.
  rewrite pour_app, (boucle_taux_credit p N infl HN Hinf) by assumption.
  cbn [bind pour]. unfold iteration_taux_credit at 1.
  rewrite evaluer_strategies_division_par_zero by assumption.
  reflexivity.
Qed.

Lemma comparer_strategies_credit_taux_nul_witness :
  comparer_strategies_selon_rentabilite_et_credit
    1000 120 [3 / 100; 5 / 100] ([1 / 100] ++ 0 :: [2 / 100]) (1 / 100)
  = Leve ZeroDivisionError.
Proof.
  apply comparer_strategies_credit_taux_nul.
  - lia.
  - lra.
  - unfold rentabilite_admise. lra.
  - repeat constructor; try (apply taux_mensuel_non_nul); lra.
Defined.

Lemma boucle_sans_taux_credit
    (p : R) (N : Z) (infl : R) (rentabilites : list R) (A M2 M1 : matrice) :
  pour (iteration_taux_rentabilite p N [] infl) rentabilites (A, M2, M1)
  = Valeur (A ++ map (fun _ => []) rentabilites,
            M2 ++ map (fun _ => []) rentabilites,
            M1 ++ map (fun _ => []) rentabilites).
Proof.
  revert A M2 M1. induction rentabilites as [| r rs IH]; intros A M2 M1.
  - cbn [pour map]. now rewrite !app_nil_r.
  - cbn [pour map]. unfold iteration_taux_rentabilite at 1. cbn [pour bind].
    rewrite IH, <- !app_assoc. reflexivity.
Qed.

(** With no credit rate to explore the sweep calls the evaluator not
    once: whatever the payment, the duration and the rates, it returns
    three matrices of one empty row per return rate. *)
Theorem comparer_strategies_sans_taux_credit
    (p : R) (N : Z) (rentabilites : list R) (infl : R) :
  exists avantage nets2 benef1,
    comparer_strategies_selon_rentabilite_et_credit p N rentabilites [] infl
    = Valeur (avantage, nets2, benef1) /\
    length avantage = length rentabilites /\
    length nets2 = length rentabilites /\
    length benef1 = length rentabilites /\
    Forall (fun ligne => ligne = []) avantage /\
    Forall (fun ligne => ligne = []) nets2 /\
    Forall (fun ligne => ligne = []) benef1.
Proof.
  assert (H : Forall (fun ligne : list Z => ligne = [])
                (map (fun _ : R => @nil Z) rentabilites)).
  { apply Forall_forall. intros x Hx. apply in_map_iff in Hx.
    now destruct Hx as (_ & <- & _). }
  do 3 eexists. split.
  - unfold comparer_strategies_selon_rentabilite_et_credit.
    rewrite boucle_sans_taux_credit. cbn [app]. reflexivity.
  - rewrite !length_map. repeat split; assumption.
Qed.

(** ** The two strategies without inflation *)

(** The first payment of a credit on the capital sized from [p] is [p]. *)
Lemma mensualite_du_capital (p i : R) (N : Z) :
  0 < 1 + i -> i <> 0 -> N <> 0%Z ->
  p * (1 - powerRZ (1 + i) (-1 * N)) / i * i * powerRZ (1 + i) N
  / (powerRZ (1 + i) N - 1) = p.
Proof.
  intros Hx Hi HN.
  assert (Hd : powerRZ (1 + i) N - 1 <> 0)
    by (apply powerRZ_un_seulement_en_zero; [assumption | lra | assumption]).
  replace (-1 * N)%Z with (- N)%Z by lia. rewrite powerRZ_neg'.
  assert (Hp : powerRZ (1 + i) N <> 0) by (apply powerRZ_NOR; lra).
  field. repeat split; assumption.
Qed.

(** Without inflation the evaluator reduces to plain bookkeeping: net
    benefit 1 is the interest earned by the monthly saving, and net
    benefit 2 is the interest earned by the borrowed capital less what
    the credit costs, the [N] payments less the capital. *)
Theorem evaluer_strategies_sans_inflation
    (p : R) (N : Z) (r rc : R)
    (Hr : -1 < r) (Hrc : -1 < rc) (Hic : Rpower (1 + rc) (1 / 12) - 1 <> 0)
    (HN : (1 <= N)%Z) :
  exists capital strat1 strat2 i1 i2,
    calculer_capital p rc N = Valeur capital /\
    calculer_interets_composes r 0 p N 0 = Valeur strat1 /\
    calculer_interets_composes r capital 0 N 0 = Valeur strat2 /\
    dernier (si_interets_mensuels_cumules strat1) = Valeur i1 /\
    dernier (si_interets_mensuels_cumules strat2) = Valeur i2 /\
    evaluer_strategies p N r rc false 0
    = Valeur (capital, i1, i2 - (IZR N * p - capital)).
Proof.
  assert (Hinf : -1 < 0) by lra.
  pose proof (calculer_interets_composes_valeur r 0 p N 0 Hr HN Hinf) as E1.
  pose proof (calculer_capital_valeur p rc N Hrc Hic) as E2. cbv zeta in E1, E2.
  set (i := Rpower (1 + rc) (1 / 12) - 1) in *.
  set (capital := p * (1 - powerRZ (1 + i) (-1 * N)) / i) in *.
  pose proof (simuler_credit_valeur capital N rc 0 Hrc Hic HN Hinf) as E3.
  pose proof (calculer_interets_composes_valeur r capital 0 N 0 Hr HN Hinf) as E4.
  cbv zeta in E3, E4. fold i in E3.
  assert (Hx : 0 < 1 + i)
    by (unfold i; pose proof (Rpower_positive (1 + rc) (1 / 12)); lra).
  assert (Hx1 : 1 + i <> 1) by lra.
  assert (Hcout :
            sum (map (interet_credit capital i (Rpower (1 + 0) (1 / 12)) N)
                   (seq 1 (Z.to_nat N)))
            = IZR N * p - capital).
  { replace (1 + 0) with 1 by ring. rewrite Rpower_un.
    replace N with (Z.of_nat (Z.to_nat N)) at 1 3 by lia.
    rewrite (somme_interets_sans_inflation capital i _ Hx Hx1) by lia.
    rewrite (solde_sans_inflation capital i _ Hx Hx1) by lia.
    rewrite <- INR_IZR_INZ. replace (Z.of_nat (Z.to_nat N)) with N by lia.
    unfold capital at 1. rewrite mensualite_du_capital by (assumption || lia).
    unfold Rdiv at 1.
    replace ((1 + i) ^ Z.to_nat N - (1 + i) ^ Z.to_nat N) with 0 by ring. ring. }
  assert (Hv1 :
            fst (serie_interets 0 p (Rpower (1 + r) (1 / 12) - 1)
                   (Rpower (1 + 0) (1 / 12)) (Z.to_nat N - 1))
            - (0 + sum (map (apport_actualise p (Rpower (1 + 0) (1 / 12)))
                          (seq 0 (Z.to_nat N)))) = 0).
  { replace (1 + 0) with 1 by ring. rewrite Rpower_un.
    rewrite capital_sans_inflation, somme_apports_sans_inflation.
    replace (S (Z.to_nat N - 1)) with (Z.to_nat N) by lia. ring. }
  assert (Hv2 :
            fst (serie_interets capital 0 (Rpower (1 + r) (1 / 12) - 1)
                   (Rpower (1 + 0) (1 / 12)) (Z.to_nat N - 1))
            - (capital + sum (map (apport_actualise 0 (Rpower (1 + 0) (1 / 12)))
                                (seq 0 (Z.to_nat N)))) = 0).
  { replace (1 + 0) with 1 by ring. rewrite Rpower_un.
    rewrite capital_sans_inflation, somme_apports_sans_inflation. ring. }
  rewrite Hcout in E3. rewrite Hv1 in E1. rewrite Hv2 in E4.
  destruct (Z.to_nat N) as [| n] eqn:En; [lia |].
  do 5 eexists.
  split; [exact E2 |]. split; [exact E1 |]. split; [exact E4 |].
  cbn [si_interets_mensuels_cumules].
  split; [apply dernier_map_seq |]. split; [apply dernier_map_seq |].
  deroule_evaluer E1 E2 E3 E4. cbn [bind].
  apply f_equal. apply f_equal2; [apply f_equal2; [reflexivity | ring] | ring].
Qed.

Lemma evaluer_strategies_sans_inflation_witness :
  exists capital b1 b2,
    evaluer_strategies 1000 120 (6 / 100) (3 / 100) false 0
    = Valeur (capital, b1, b2).
Proof.
  destruct (evaluer_strategies_sans_inflation 1000 120 (6 / 100) (3 / 100))
    as (capital & s1 & s2 & i1 & i2 & _ & _ & _ & _ & _ & E).
  - lra.
  - lra.
  - apply taux_mensuel_non_nul; lra.
  - lia.
  - do 3 eexists. exact E.
Defined.

(** ** The written report of a simulation *)

(** The report of a one-month simulation stops short: the interest of
    the last month is computed from the last two entries of the interest
    series, and there is only one.  Eight lines are printed, the last one
    being the cumulative interest (0), before [IndexError] is raised. *)
Theorem rapport_simulation_un_mois
    (r C c infl : R) (Hr : -1 < r) (Hi : -1 < infl) :
  exists res,
    calculer_interets_composes r C c 1 infl = Valeur res /\
    let rapport :=
      afficher_rapport_simulation_interets_composes
        C (si_capitals_mensuels res) (si_interets_mensuels_cumules res)
        (si_labels_mois res) r c (si_apports_mensuels_monnaie_actuelle res)
        (si_variation_capital res) infl in
    snd rapport = Leve IndexError /\
    length (fst rapport) = 8%nat /\
    last (fst rapport) (Capital_initial C) = Interets_cumules 0.
Proof.
  eexists. split.
  - apply calculer_interets_composes_valeur; [assumption | lia | assumption].
  - cbn [si_capitals_mensuels si_interets_mensuels_cumules si_labels_mois
         si_apports_mensuels_monnaie_actuelle si_variation_capital].
    change (Z.to_nat 1) with 1%nat. repeat split.
Qed.

Lemma rapport_simulation_un_mois_witness :
  exists res,
    calculer_interets_composes (6 / 100) 10000 100 1 (1 / 100) = Valeur res /\
    snd (afficher_rapport_simulation_interets_composes
           10000 (si_capitals_mensuels res) (si_interets_mensuels_cumules res)
           (si_labels_mois res) (6 / 100) 100
           (si_apports_mensuels_monnaie_actuelle res)
           (si_variation_capital res) (1 / 100))
    = Leve IndexError.
Proof.
  destruct (rapport_simulation_un_mois (6 / 100) 10000 100 (1 / 100))
    as (res & E & H & _); [lra | lra |].
  exists res. split; assumption.
Defined.

(** From two months on the report runs to its end and prints ten lines:
    the nominal contributions are the initial capital plus one payment
    per month label, the interest of the last month is the difference of
    the last two cumulative interests, and the final amount is the last
    capital plus the last cumulative interest. *)
Theorem rapport_simulation_complet
    (r C c : R) (N : Z) (infl : R)
    (Hr : -1 < r) (HN : (2 <= N)%Z) (Hi : -1 < infl) :
  exists res,
    calculer_interets_composes r C c N infl = Valeur res /\
    let n := Z.to_nat N in
    let capital k := nth k (si_capitals_mensuels res) 0 in
    let interet k := nth k (si_interets_mensuels_cumules res) 0 in
    afficher_rapport_simulation_interets_composes
      C (si_capitals_mensuels res) (si_interets_mensuels_cumules res)
      (si_labels_mois res) r c (si_apports_mensuels_monnaie_actuelle res)
      (si_variation_capital res) infl
    = ([ Capital_initial C;
         Taux_de_rentabilite_pourcent (r * 100);
         Taux_d_inflation_pourcent (infl * 100);
         Capital_en_monnaie_actuelle (capital (n - 1)%nat);
         Apports_cumules_en_monnaie_actuelle
           (sum (si_apports_mensuels_monnaie_actuelle res));
         Apports_cumules_sans_correction (C + c * IZR N);
         Variation_du_capital (si_variation_capital res);
         Interets_cumules (interet (n - 1)%nat);
         Interets_du_dernier_mois (interet (n - 1)%nat - interet (n - 2)%nat);
         Montant_final (capital (n - 1)%nat + interet (n - 1)%nat) ],
       Valeur tt).
Proof.
  eexists. split.
  - apply calculer_interets_composes_valeur; [assumption | lia | assumption].
  - cbn [si_capitals_mensuels si_interets_mensuels_cumules si_labels_mois
         si_apports_mensuels_monnaie_actuelle si_variation_capital].
    cbv zeta. unfold afficher_rapport_simulation_interets_composes.
    rewrite range_length.
    assert (HNn : IZR N = INR (Z.to_nat N)) by (rewrite INR_IZR_INZ; f_equal; lia).
    rewrite HNn.
    destruct (Z.to_nat N) as [| [| n]] eqn:En; [lia | lia |].
    replace (S (S n) - 1)%nat with (S n) by lia.
    replace (S (S n) - 2)%nat with n by lia.
    rewrite !nth_map_seq by lia.
    rewrite !dernier_map_seq, avant_dernier_map_seq.
    reflexivity.
Qed.

Lemma rapport_simulation_complet_witness :
  exists res,
    calculer_interets_composes (6 / 100) 10000 0 120 (1 / 100) = Valeur res /\
    snd (afficher_rapport_simulation_interets_composes
           10000 (si_capitals_mensuels res) (si_interets_mensuels_cumules res)
           (si_labels_mois res) (6 / 100) 0
           (si_apports_mensuels_monnaie_actuelle res)
           (si_variation_capital res) (1 / 100))
    = Valeur tt.
Proof.
  destruct (rapport_simulation_complet (6 / 100) 10000 0 120 (1 / 100))
    as (res & E & H); [lra | lia | lra |].
  exists res. split; [exact E |]. cbv zeta in H. rewrite H. reflexivity.
Defined.

(** ** Month labels *)

(** The credit schedule describes installments 1 to [N], but the labels
    returned with it count from 0: they are [0, 1, ..., N - 1], the same
    labels as those of a compound-interest simulation of [N] months. *)
Theorem simuler_credit_labels
    (P : R) (N : Z) (r infl C c : R)
    (Hr : -1 < r) (Hi0 : Rpower (1 + r) (1 / 12) - 1 <> 0)
    (HN : (1 <= N)%Z) (Hinf : -1 < infl) :
  exists credit placement,
    simuler_credit P N r infl = Valeur credit /\
    calculer_interets_composes r C c N infl = Valeur placement /\
    sc_labels_mois credit = range N /\
    sc_labels_mois credit = si_labels_mois placement /\
    nth 0 (sc_labels_mois credit) 1%Z = 0%Z.
Proof.
  do 2 eexists. split; [| split].
  - apply simuler_credit_valeur; assumption.
  - apply calculer_interets_composes_valeur; assumption.
  - cbn [sc_labels_mois si_labels_mois]. repeat split.
    destruct (range_positif N HN) as [reste E]. now rewrite E.
Qed.

Lemma simuler_credit_labels_witness :
  exists credit,
    simuler_credit 100000 120 (3 / 100) 0 = Valeur credit /\
    sc_labels_mois credit = range 120.
Proof.
  destruct (simuler_credit_labels 100000 120 (3 / 100) 0 0 0)
    as (credit & placement & E & _ & H & _).
  - lra.
  - apply taux_mensuel_non_nul; lra.
  - lia.
  - lra.
  - exists credit. split; assumption.
Defined.

(** ** Display over a single month *)

(** Asked to display a one-month comparison, the evaluator returns no
    triple: the simulations and the credit succeed, then the written
    report of strategy 1 raises [IndexError] on
    [interets_mensuels_cumules[-2]].  Without display the same call
    returns. *)
Theorem evaluer_strategies_affichage_un_mois
    (p r rc infl : R)
    (Hr : -1 < r) (Hrc : -1 < rc) (Hic : Rpower (1 + rc) (1 / 12) - 1 <> 0)
    (Hinf : -1 < infl) :
  evaluer_strategies p 1 r rc true infl = Leve IndexError /\
  exists capital b1 b2,
    evaluer_strategies p 1 r rc false infl = Valeur (capital, b1, b2).
Proof.
  assert (HN : (1 <= 1)%Z) by lia.
  pose proof (calculer_interets_composes_valeur r 0 p 1 infl Hr HN Hinf) as E1.
  pose proof (calculer_capital_valeur p rc 1 Hrc Hic) as E2. cbv zeta in E1, E2.
  set (capital := p * (1 - powerRZ (1 + (Rpower (1 + rc) (1 / 12) - 1)) (-1 * 1))
                  / (Rpower (1 + rc) (1 / 12) - 1)) in *.
  pose proof (simuler_credit_valeur capital 1 rc infl Hrc Hic HN Hinf) as E3.
  pose proof (calculer_interets_composes_valeur r capital 0 1 infl Hr HN Hinf) as E4.
  cbv zeta in E3, E4. change (Z.to_nat 1) with 1%nat in *.
  split.
  - deroule_evaluer E1 E2 E3 E4. unfold affichage_strategies.
    cbn [si_capitals_mensuels si_interets_mensuels_cumules si_labels_mois
         si_apports_mensuels_monnaie_actuelle si_variation_capital].
    rewrite rapport_interrompu. reflexivity.
  - do 3 eexists. deroule_evaluer E1 E2 E3 E4. reflexivity.
Qed.

Lemma evaluer_strategies_affichage_un_mois_witness :
  evaluer_strategies 1000 1 (6 / 100) (3 / 100) true (1 / 100) = Leve IndexError.
Proof.
  apply (evaluer_strategies_affichage_un_mois 1000 (6 / 100) (3 / 100) (1 / 100));
    [lra | lra | apply taux_mensuel_non_nul; lra | lra].
Defined.
